(** * Assignment and route optimisation engine (assign_locations.py)

    A shallow embedding of the employee-to-ticket assignment, the greedy
    nearest-neighbour route planner and the lookup performed by the three
    HTTP endpoints, together with the properties stated for them.

    Conventions of the embedding.
    - A Python [str] is a [string] whose characters are read as code
      points below 256.
    - A JSON scalar is a [pyval] (null, a boolean, an integer or a
      string); the fields of the records handled here hold scalars, and
      the body of a request that parses is a JSON object.
    - A Python [float] is a primitive binary64 [float]; [<], [+], [0.0]
      and [float('inf')] are the IEEE operations of [PrimFloat].
    - [haversine] goes through the C library ([sin], [cos], [atan2]) and
      [round] through the interpreter's decimal conversion: both are
      parameters of the planner. *)

From Stdlib Require Import ZArith NArith String Ascii List Floats DecimalString.
From stdpp Require Import base option gmap strings list.

#[local] Set Warnings "-clear-no-such-hyp".

Local Open Scope string_scope.
Local Open Scope list_scope.

(** ** Python strings *)

Module PyStr.

(** [str.isspace] on one character. *)
Definition is_space (c : ascii) : bool :=
  let n := N_of_ascii c in
  ((9 <=? n) && (n <=? 13) || (28 <=? n) && (n <=? 32)
   || (n =? 133) || (n =? 160))%N.

(** Characters that [str.lower] changes: A-Z and the Latin-1 capitals. *)
Definition is_upper (c : ascii) : bool :=
  let n := N_of_ascii c in
  ((65 <=? n) && (n <=? 90)
   || (192 <=? n) && (n <=? 222) && negb (n =? 215))%N.

Definition lower_char (c : ascii) : ascii :=
  if is_upper c then ascii_of_N (N_of_ascii c + 32) else c.

Fixpoint lower (s : string) : string :=
  match s with
  | EmptyString => EmptyString
  | String c r => String (lower_char c) (lower r)
  end.

Fixpoint lstrip (s : string) : string :=
  match s with
  | EmptyString => EmptyString
  | String c r => if is_space c then lstrip r else s
  end.

Fixpoint rstrip (s : string) : string :=
  match s with
  | EmptyString => EmptyString
  | String c r =>
      match rstrip r with
      | EmptyString => if is_space c then EmptyString else String c EmptyString
      | r' => String c r'
      end
  end.

(** [s.strip()] *)
Definition strip (s : string) : string := rstrip (lstrip s).

End PyStr.

(** ** JSON scalars as Python sees them *)

Inductive pyval : Type :=
| PNone
| PBool (b : bool)
| PInt (z : Z)
| PStr (s : string).

(** [bool(v)], the test behind [if v] and [not v]. *)
Definition truthy (v : pyval) : bool :=
  match v with
  | PNone => false
  | PBool b => b
  | PInt z => negb (z =? 0)%Z
  | PStr s => negb (String.eqb s "")
  end.

(** [str(v)] *)
Definition py_str (v : pyval) : string :=
  match v with
  | PNone => "None"
  | PBool true => "True"
  | PBool false => "False"
  | PInt z => NilZero.string_of_int (Z.to_int z)
  | PStr s => s
  end.

(** [v == w], which is also the equality of dict keys: a bool is the
    integer 0 or 1, and values of different kinds differ. *)
Definition py_eqb (v w : pyval) : bool :=
  match v, w with
  | PNone, PNone => true
  | PBool a, PBool b => Bool.eqb a b
  | PBool a, PInt z | PInt z, PBool a => (z =? (if a then 1 else 0))%Z
  | PInt a, PInt b => (a =? b)%Z
  | PStr a, PStr b => String.eqb a b
  | _, _ => false
  end.

(** ** Records *)

(** An employee row. A field read with [emp.get(k)] is [PNone] when the
    key is missing; [availability] is read with the default [''], so a
    missing key is kept apart as [None]. *)
Record employee : Type := {
  e_id : pyval;
  name : pyval;
  problem_occured : pyval;
  availability : option pyval
}.

Record customer : Type := {
  location : pyval;
  c_problem_occured : pyval
}.

Record assignment : Type := {
  a_e_id : pyval;
  a_name : pyval;
  assigned_locations : list pyval;
  a_problem_occured : pyval
}.

(** ** Assignment engine *)

(** The dict [by_problem]: keys compared with [==], one list per key. *)
Definition problem_dict : Type := list (pyval * list pyval).

(** [d.setdefault(k, []).append(v)] *)
Fixpoint setdefault_append (d : problem_dict) (k v : pyval) : problem_dict :=
  match d with
  | [] => [(k, [v])]
  | (k', l) :: rest =>
      if py_eqb k' k then (k', l ++ [v]) :: rest
      else (k', l) :: setdefault_append rest k v
  end.

(** [d.get(k, [])] *)
Fixpoint dict_get (d : problem_dict) (k : pyval) : list pyval :=
  match d with
  | [] => []
  | (k', l) :: rest => if py_eqb k' k then l else dict_get rest k
  end.

(** One turn of the loop over [customers]. *)
Definition group_step (by_problem : problem_dict) (c : customer) : problem_dict :=
  let loc := location c in
  let prob := c_problem_occured c in
  if negb (truthy loc) || negb (truthy prob) then by_problem
  else setdefault_append by_problem prob loc.

Definition group_by_problem (customers : list customer) : problem_dict :=
  fold_left group_step customers [].

(** [str(emp.get('availability', '')).strip().lower()] *)
Definition avail_token (emp : employee) : string :=
  PyStr.lower (PyStr.strip (py_str (default (PStr "") (availability emp)))).

Definition avail_tokens : list string := ["yes"; "1"; "true"; "available"].

Definition is_available (emp : employee) : bool :=
  existsb (String.eqb (avail_token emp)) avail_tokens.

Definition make_assignment (emp : employee) (locs : list pyval) : assignment :=
  {| a_e_id := e_id emp;
     a_name := name emp;
     assigned_locations := locs;
     a_problem_occured := problem_occured emp |}.

(** One turn of the loop over [employees]. *)
Definition assign_step (by_problem : problem_dict)
    (assignments : list assignment) (emp : employee) : list assignment :=
  if negb (is_available emp) then assignments
  else
    let prob := problem_occured emp in
    match dict_get by_problem prob with
    | [] => assignments
    | locs => assignments ++ [make_assignment emp locs]
    end.

Definition assign_locations (employees : list employee)
    (customers : list customer) : list assignment :=
  fold_left (assign_step (group_by_problem customers)) employees [].

(** ** Route planner *)

(** A geocache point [(lat, lon)], in degrees. *)
Definition coord : Type := float * float.

(** The dict [coords] of the planner. Python keeps the keys of a dict in
    the order of their first insertion, and the planner walks them in
    that order, so the dict is a list of bindings. *)
Definition coord_dict : Type := list (string * coord).

(** [d[k] = v]: a key already there keeps its place. *)
Fixpoint coords_set (d : coord_dict) (k : string) (v : coord) : coord_dict :=
  match d with
  | [] => [(k, v)]
  | (k', v') :: rest =>
      if String.eqb k' k then (k', v) :: rest
      else (k', v') :: coords_set rest k v
  end.

(** [d[k]]; [None] stands for [KeyError]. *)
Fixpoint coords_get (d : coord_dict) (k : string) : option coord :=
  match d with
  | [] => None
  | (k', v) :: rest => if String.eqb k' k then Some v else coords_get rest k
  end.

(** [k in d] *)
Definition coords_mem (d : coord_dict) (k : string) : bool :=
  match coords_get d k with Some _ => true | None => false end.

(** [list(d.keys())] *)
Definition coords_keys (d : coord_dict) : list string := map fst d.

Section Planner.

(** The geocache loaded at start-up: location key to [(lat, lon)]. *)
Variable GEOCACHE : gmap string coord.

(** [haversine(a, b)]: the great-circle distance in kilometres. *)
Variable haversine : coord -> coord -> float.

(** [round(x, 2)] *)
Variable round2 : float -> float.

(** The first loop of the planner: the locations found in the geocache,
    with their coordinates. *)
Definition coords_step (coords : coord_dict) (loc : string) : coord_dict :=
  match GEOCACHE !! loc with
  | Some val => coords_set coords loc (val.1, val.2)
  | None => coords
  end.

Definition build_coords (locations : list string) : coord_dict :=
  fold_left coords_step locations [].

(** The inner [for n in nodes] loop, from the scan position [todo] on:
    the pair [(nearest, ndist)] when the scan ends. *)
Fixpoint nearest_scan (coords : coord_dict) (visited : gset string)
    (current : string) (todo : list string)
    (nearest : option string) (ndist : float)
    : option (option string * float) :=
  match todo with
  | [] => Some (nearest, ndist)
  | n :: rest =>
      if bool_decide (n ∈ visited)
      then nearest_scan coords visited current rest nearest ndist
      else
        a ← coords_get coords current;
        b ← coords_get coords n;
        let d := haversine a b in
        if (d <? ndist)%float
        then nearest_scan coords visited current rest (Some n) d
        else nearest_scan coords visited current rest nearest ndist
  end.

(** The [while len(visited) < len(nodes)] loop. Every turn that does
    not leave the loop adds one node to [visited], so [fuel] bounds the
    number of turns; [None] is a [KeyError] or the end of the fuel. *)
Fixpoint route_loop (fuel : nat) (coords : coord_dict) (nodes : list string)
    (route : list string) (visited : gset string) (total : float)
    (current : string) : option (list string * float) :=
  match fuel with
  | O => None
  | S fuel' =>
      if (size visited <? length nodes)%nat then
        '(nearest, ndist) ← nearest_scan coords visited current nodes None infinity;
        match nearest with
        | None => Some (route, total)
        | Some n =>
            route_loop fuel' coords nodes (route ++ [n]) (visited ∪ {[n]})
              (total + ndist)%float n
        end
      else Some (route, total)
  end.

(** The node the route starts at. *)
Definition start_node (coords : coord_dict) (depot : pyval) (first : string) : string :=
  match depot with
  | PStr d => if coords_mem coords d then d else first
  | _ => first
  end.

Definition greedy_route_from_coords (locations : list string) (depot : pyval)
    : option (list string * float) :=
  let coords := build_coords locations in
  match coords_keys coords with
  | [] => Some ([], 0%float)
  | (first :: _) as nodes =>
      let start := start_node coords depot first in
      '(route, total) ← route_loop (length nodes) coords nodes
                          [start] {[start]} 0%float start;
      Some (route, round2 total)
  end.

End Planner.

(** ** The HTTP endpoints *)

(** The JSON body of a request, read with [payload.get]. *)
Record payload : Type := {
  p_e_id : pyval;
  p_name : pyval;
  p_depot : pyval
}.

Inductive request_body : Type :=
| InvalidJson (details : string)
| JsonBody (p : payload).

(** What [jsonify] is given, one constructor per shape. *)
Inductive json_body : Type :=
| ErrorBody (error : string) (details : option string)
| AssignBody (r_e_id r_name : pyval) (route : list string)
    (distance_km : float) (map_html : option string)
| RouteBody (r_e_id r_name : pyval) (route : list string) (distance_km : float)
| MapBody (r_e_id r_name : pyval) (map_html : string) (distance_km : float)
| UnhandledException.

(** A response: the body and the HTTP status. *)
Definition response : Type := json_body * Z.

(** [next((a for a in assignments if str(a.get('e_id')) == str(e_id)), None)] *)
Definition find_by_e_id (e_id : pyval) (assignments : list assignment)
    : option assignment :=
  List.find (fun a => String.eqb (py_str (a_e_id a)) (py_str e_id)) assignments.

(** [str(v).strip().lower()] *)
Definition norm_name (v : pyval) : string :=
  PyStr.lower (PyStr.strip (py_str v)).

Definition find_by_name (name : pyval) (assignments : list assignment)
    : option assignment :=
  List.find (fun a => String.eqb (norm_name (a_name a)) (norm_name name)) assignments.

(** The selection block shared by the three endpoints; the outer [None]
    is the branch that answers 400. *)
Definition select_employee (e_id name : pyval) (assignments : list assignment)
    : option (option assignment) :=
  if truthy e_id then Some (find_by_e_id e_id assignments)
  else if truthy name then Some (find_by_name name assignments)
  else None.

Definition not_found : response :=
  (ErrorBody "Employee not found or no assigned locations" None, 404%Z).

Definition no_key : response :=
  (ErrorBody "Provide e_id or name in JSON body" None, 400%Z).

Definition invalid_json (details : string) : response :=
  (ErrorBody "Invalid JSON body" (Some details), 400%Z).

Section Endpoints.

Variable GEOCACHE : gmap string coord.
Variable haversine : coord -> coord -> float.
Variable round2 : float -> float.

(** The map renderer (folium), from the route and its coordinates to
    the HTML text. *)
Variable folium_render : list string -> list coord -> string.

(** [[loc for loc in locations if loc in GEOCACHE]]: the keys of the
    geocache are strings, so only a string can be one of them. *)
Definition locs_with_coords (locations : list pyval) : list string :=
  omap (fun loc =>
          match loc with
          | PStr s => match GEOCACHE !! s with Some _ => Some s | None => None end
          | _ => None
          end) locations.

Definition generate_route_map_html (route : list string) : option string :=
  let route_coords := omap (fun loc => GEOCACHE !! loc) route in
  match route_coords with
  | [] => None
  | _ => Some (folium_render route route_coords)
  end.

(** The part of an endpoint after the employee is found. An exception
    escaping the planner becomes Flask's answer 500. *)
Definition with_route (emp : assignment) (depot : pyval)
    (k : list string -> float -> response) : response :=
  let locations := assigned_locations emp in
  match greedy_route_from_coords GEOCACHE haversine round2
          (locs_with_coords locations) depot with
  | Some (route, dist) => k route dist
  | None => (UnhandledException, 500%Z)
  end.

Definition assign_locations_endpoint (req : request_body)
    (employees : list employee) (customers : list customer) : response :=
  match req with
  | InvalidJson details => invalid_json details
  | JsonBody p =>
      match employees, customers with
      | [], _ => (ErrorBody "No employee data found" None, 404%Z)
      | _, [] => (ErrorBody "No customer data found" None, 404%Z)
      | _, _ =>
          let assignments := assign_locations employees customers in
          match select_employee (p_e_id p) (p_name p) assignments with
          | None => no_key
          | Some None => not_found
          | Some (Some emp) =>
              with_route emp (p_depot p) (fun route dist =>
                let map_html := generate_route_map_html route in
                (AssignBody (a_e_id emp) (a_name emp) route dist map_html, 200%Z))
          end
      end
  end.

Definition optimized_route (req : request_body)
    (employees : list employee) (customers : list customer) : response :=
  match req with
  | InvalidJson details => invalid_json details
  | JsonBody p =>
      let assignments := assign_locations employees customers in
      match select_employee (p_e_id p) (p_name p) assignments with
      | None => no_key
      | Some None => not_found
      | Some (Some emp) =>
          with_route emp (p_depot p) (fun route dist =>
            (RouteBody (a_e_id emp) (a_name emp) route dist, 200%Z))
      end
  end.

Definition optimized_map (req : request_body)
    (employees : list employee) (customers : list customer) : response :=
  match req with
  | InvalidJson details => invalid_json details
  | JsonBody p =>
      let assignments := assign_locations employees customers in
      match select_employee (p_e_id p) (p_name p) assignments with
      | None => no_key
      | Some None => not_found
      | Some (Some emp) =>
          with_route emp (p_depot p) (fun route dist =>
            match generate_route_map_html route with
            | None | Some "" =>
                (ErrorBody "Failed to generate map (no coordinates)" None, 500%Z)
            | Some map_html =>
                (MapBody (a_e_id emp) (a_name emp) map_html dist, 200%Z)
            end)
      end
  end.

End Endpoints.

From Stdlib Require Import DecimalN.

(** ** Loading the data files *)

(** What the loader finds at one candidate path: no file, a file that
    cannot be opened or parsed (an exception), or the parsed content. *)
Inductive file_state (A : Type) : Type :=
| Absent
| Unreadable
| Loaded (data : A).

Arguments Absent {A}.
Arguments Unreadable {A}.
Arguments Loaded {A} data.

(** [for p in paths: if os.path.exists(p): try: ... break / except:
    continue]: the content of the first candidate that exists and loads. *)
Fixpoint first_loaded {A : Type} (paths : list (file_state A)) : option A :=
  match paths with
  | [] => None
  | Absent :: rest => first_loaded rest
  | Unreadable :: rest => first_loaded rest
  | Loaded data :: _ => Some data
  end.

(** The top level of a data file: an object with the expected key, an
    object without it, a list, or another JSON value. The records are
    those of the assignment engine. *)
Inductive json_doc (A : Type) : Type :=
| DictWith (records : list A)
| DictWithout
| ListOf (records : list A)
| OtherJson.

Arguments DictWith {A} records.
Arguments DictWithout {A}.
Arguments ListOf {A} records.
Arguments OtherJson {A}.

(** The three-way test on the loaded data. *)
Definition records_of {A : Type} (data : json_doc A) : list A :=
  match data with
  | DictWith records => records
  | ListOf records => records
  | _ => []
  end.

Record candidates : Type := {
  cand_customers : list customer;
  cand_employees : list employee
}.

(** [load_json_candidates()], from what stands at the three customer
    paths and at the three employee paths, in the order of the source. *)
Definition load_json_candidates
    (cust_paths : list (file_state (json_doc customer)))
    (emp_paths : list (file_state (json_doc employee))) : candidates :=
  {| cand_customers := default [] (records_of <$> first_loaded cust_paths);
     cand_employees := default [] (records_of <$> first_loaded emp_paths) |}.

(** The start-up loop that fills [GEOCACHE]. *)
Definition load_geocache (paths : list (file_state (gmap string coord)))
    : gmap string coord :=
  default ∅ (first_loaded paths).

(** ** The employee filter of admin.py *)

Module Admin.

(** [normalize_text(v)] *)
Definition normalize_text (v : pyval) : string :=
  match v with
  | PNone => ""
  | _ => PyStr.lower (PyStr.strip (py_str v))
  end.

Fixpoint starts_with (sub s : string) : bool :=
  match sub, s with
  | EmptyString, _ => true
  | String a sub', String b s' => Ascii.eqb a b && starts_with sub' s'
  | String _ _, EmptyString => false
  end.

(** [sub in s] on strings *)
Fixpoint contains (sub s : string) : bool :=
  starts_with sub s
  || match s with
     | EmptyString => false
     | String _ s' => contains sub s'
     end.

Definition true_set : list string := ["yes"; "true"; "1"; "available"; "y"].
Definition false_set : list string := ["no"; "false"; "0"; "n"].

Definition in_set (s : string) (set : list string) : bool :=
  existsb (String.eqb s) set.

(** [availability_matches(emp_av_raw, desired_raw)] *)
Definition availability_matches (emp_av_raw desired_raw : pyval) : bool :=
  if negb (truthy desired_raw) then true
  else
    let emp_av := normalize_text emp_av_raw in
    let desired := normalize_text desired_raw in
    if in_set desired true_set then in_set emp_av true_set
    else if in_set desired false_set then in_set emp_av false_set
    else contains desired emp_av.

(** [emp.get('availability')] *)
Definition get_availability (emp : employee) : pyval :=
  default PNone (availability emp).

(** The filtering of [filter_employees] once the employee file is read;
    [None] is the answer 400 when no problem is asked for. *)
Definition filter_employees (employees : list employee)
    (problem availability : pyval) : option (list employee) :=
  if negb (truthy problem) then None
  else
    let desired_problem := normalize_text problem in
    let filtered :=
      List.filter
        (fun emp => String.eqb (normalize_text (problem_occured emp)) desired_problem)
        employees in
    if truthy availability
    then Some (List.filter
                 (fun emp => availability_matches (get_availability emp) availability)
                 filtered)
    else Some filtered.

End Admin.

(** ** The ticket store of customers_api.py *)

Module CustomersApi.

Record ticket : Type := {
  username : pyval;
  ticket_number : pyval;
  t_location : pyval;
  contact : pyval;
  t_problem_occured : pyval
}.

(** The ticket as the assignment engine reads it. *)
Definition as_customer (t : ticket) : customer :=
  {| location := t_location t; c_problem_occured := t_problem_occured t |}.

(** One character of [str.isdigit]: "0" to "9" and the superscripts 1, 2
    and 3. *)
Definition isdigit_char (c : ascii) : bool :=
  let n := N_of_ascii c in
  ((48 <=? n) && (n <=? 57) || (n =? 178) || (n =? 179) || (n =? 185))%N.

Fixpoint all_digits (s : string) : bool :=
  match s with
  | EmptyString => true
  | String c r => isdigit_char c && all_digits r
  end.

(** [s.isdigit()] *)
Definition isdigit (s : string) : bool :=
  match s with
  | EmptyString => false
  | _ => all_digits s
  end.

(** [int(s)] on a string that passed [isdigit]; [None] is [ValueError]. *)
Definition int_of_digits (s : string) : option N :=
  N.of_uint <$> NilEmpty.uint_of_string s.

(** The number read from one ticket number, if it has the form. *)
Definition ticket_num (tn : pyval) : option N :=
  match tn with
  | PStr (String "T" rest) => if isdigit rest then int_of_digits rest else None
  | _ => None
  end.

Definition max_step (max_num : N) (c : ticket) : N :=
  match ticket_num (ticket_number c) with
  | Some num => if (max_num <? num)%N then num else max_num
  | None => max_num
  end.

Fixpoint zero_pad (width : nat) (s : string) : string :=
  match width with
  | O => s
  | S w => if (String.length s <? width)%nat then String "0" (zero_pad w s) else s
  end.

(** [f"{n:04d}"] *)
Definition format_04d (n : N) : string :=
  zero_pad 4 (NilEmpty.string_of_uint (N.to_uint n)).

(** [_generate_next_ticket_number(customers)] *)
Definition generate_next_ticket_number (customers : list ticket) : string :=
  let max_num := fold_left max_step customers 0%N in
  let next_num := (max_num + 1)%N in
  String "T" (format_04d next_num).

Definition required : list string :=
  ["username"; "location"; "contact"; "problem_occured"].

(** [_validate_customer_payload(payload)] *)
Definition validate_customer_payload (payload : gmap string pyval) : list string :=
  List.filter
    (fun r => match payload !! r with
              | None => true
              | Some v => py_eqb v PNone || py_eqb v (PStr "")
              end)
    required.

Inductive ticket_response : Type :=
| TicketError (error : string) (missing : list string)
| SaveError
| Created (t : ticket).

(** [payload[k]] for a key that passed the validation *)
Definition field (payload : gmap string pyval) (k : string) : pyval :=
  default PNone (payload !! k).

(** [create_customer_ticket()], from the parsed body ([None] when
    [get_json] gives nothing), the tickets in the store and whether the
    write succeeds; it returns the answer, its status and the tickets in
    the store afterwards. The store file is taken to hold an object with
    the list of tickets; its metadata, which the function only counts
    and dates, is left out. *)
Definition create_customer_ticket (body : option (gmap string pyval))
    (customers : list ticket) (write_ok : bool)
    : ticket_response * Z * list ticket :=
  match body with
  | None => (TicketError "Invalid or missing JSON payload" [], 400%Z, customers)
  | Some payload =>
      if bool_decide (payload = ∅)
      then (TicketError "Invalid or missing JSON payload" [], 400%Z, customers)
      else
        match validate_customer_payload payload with
        | (_ :: _) as missing =>
            (TicketError "Missing required fields" missing, 400%Z, customers)
        | [] =>
            let new_ticket :=
              {| username := field payload "username";
                 ticket_number := PStr (generate_next_ticket_number customers);
                 t_location := field payload "location";
                 contact := field payload "contact";
                 t_problem_occured := field payload "problem_occured" |} in
            if write_ok
            then (Created new_ticket, 201%Z, customers ++ [new_ticket])
            else (SaveError, 500%Z, customers)
        end
  end.

End CustomersApi.

(** ** What the engine is expected to compute *)

(** The definitions below say, without the loops and the dict of the
    source, what [assign_locations] produces; the theorems relate the two. *)

(** The test a ticket passes to enter the grouping. *)
Definition ticket_ok (c : customer) : bool :=
  truthy (location c) && truthy (c_problem_occured c).

(** The locations of the tickets of one category, in ticket order. *)
Definition locations_for (customers : list customer) (prob : pyval) : list pyval :=
  map location
    (List.filter (fun c => ticket_ok c && py_eqb (c_problem_occured c) prob) customers).

(** The assignment one employee receives, if any. *)
Definition assignment_of (customers : list customer) (emp : employee)
    : option assignment :=
  if is_available emp then
    match locations_for customers (problem_occured emp) with
    | [] => None
    | locs => Some (make_assignment emp locs)
    end
  else None.

(** Matching of problem categories after [strip] and [lower], the
    comparison the lookup by name uses. *)
Definition norm_eqb (v w : pyval) : bool :=
  String.eqb (norm_name v) (norm_name w).

(** The locations of the tickets whose category matches [prob] under
    [norm_eqb]. *)
Definition locations_norm (customers : list customer) (prob : pyval) : list pyval :=
  map location
    (List.filter (fun c => norm_eqb (c_problem_occured c) prob) customers).

(** The first occurrences of the elements of a list, in order. *)
Fixpoint distinct (l : list string) : list string :=
  match l with
  | [] => []
  | x :: r => x :: filter (fun y => y <> x) (distinct r)
  end.

(** *** The route, in the words of its description *)

Section RouteSpec.

Variable GEOCACHE : gmap string coord.
Variable haversine : coord -> coord -> float.

(** The candidate set: the locations found in the geocache, each once,
    in the order in which the caller supplied them. *)
Definition route_nodes (locations : list string) : list string :=
  distinct (filter (fun loc => is_Some (GEOCACHE !! loc)) locations).

(** The distance between two locations of the geocache. *)
Definition geo_dist (a b : string) : float :=
  match GEOCACHE !! a, GEOCACHE !! b with
  | Some ca, Some cb => haversine ca cb
  | _, _ => nan
  end.

(** Every distance between two of the nodes is a number below
    infinity, as the distance between two well-formed points is. *)
Definition finite_dists (nodes : list string) : bool :=
  forallb (fun a =>
             forallb (fun b => (geo_dist a b <? infinity)%float) nodes) nodes.

(** The start: the depot when it is one of the nodes, else the first
    node. *)
Definition expected_start (nodes : list string) (depot : pyval) (first : string)
    : string :=
  match depot with
  | PStr d => if bool_decide (d ∈ nodes) then d else first
  | _ => first
  end.

(** [nxt] is the unvisited node nearest to [cur]: no unvisited node is
    strictly nearer, and the unvisited nodes that come before it in the
    scan are strictly farther (the first minimum wins). *)
Definition nearest_unvisited (nodes route : list string) (cur nxt : string) : Prop :=
  exists before after,
    nodes = before ++ nxt :: after
    /\ (nxt ∉ route)
    /\ (geo_dist cur nxt <? infinity)%float = true
    /\ (forall m, m ∈ before -> m ∉ route ->
                  (geo_dist cur m <? infinity)%float = true ->
                  (geo_dist cur nxt <? geo_dist cur m)%float = true)
    /\ (forall m, m ∈ before ++ after -> m ∉ route ->
                  (geo_dist cur m <? geo_dist cur nxt)%float = false).

(** The planner's walk from the state [(route, cur, total)] to the
    result: it stops when no unvisited node is at a distance below
    infinity, which covers the case where every node is visited. *)
Inductive greedy_run (nodes : list string)
    : list string -> string -> float -> list string -> float -> Prop :=
| greedy_run_stop route cur total :
    (forall n, n ∈ nodes -> n ∉ route ->
               (geo_dist cur n <? infinity)%float = false) ->
    greedy_run nodes route cur total route total
| greedy_run_step route cur total nxt route' total' :
    nearest_unvisited nodes route cur nxt ->
    greedy_run nodes (route ++ [nxt]) nxt (total + geo_dist cur nxt)%float
      route' total' ->
    greedy_run nodes route cur total route' total'.

(** The walk as it is described: repeat until all the nodes are
    visited; each turn appends the nearest unvisited node and adds its
    distance to the total. *)
Inductive greedy_steps (nodes : list string)
    : list string -> string -> float -> list string -> float -> Prop :=
| greedy_steps_done route cur total :
    (forall n, n ∈ nodes -> n ∈ route) ->
    greedy_steps nodes route cur total route total
| greedy_steps_next route cur total nxt route' total' :
    nearest_unvisited nodes route cur nxt ->
    greedy_steps nodes (route ++ [nxt]) nxt (total + geo_dist cur nxt)%float
      route' total' ->
    greedy_steps nodes route cur total route' total'.

(** The inner scan without the lookups in [coords]. *)
Fixpoint scan_pure (dist : string -> float) (visited : gset string)
    (todo : list string) (st : option string * float) : option string * float :=
  match todo with
  | [] => st
  | n :: rest =>
      if bool_decide (n ∈ visited) then scan_pure dist visited rest st
      else if (dist n <? st.2)%float
           then scan_pure dist visited rest (Some n, dist n)
           else scan_pure dist visited rest st
  end.

End RouteSpec.

(** What the scan knows after the nodes [scanned]: either no unvisited
    node at a distance below infinity was met, or [b] is the first of the
    nearest ones. *)
Definition scan_inv (d : string -> float) (visited : gset string)
    (scanned : list string) (st : option string * float) : Prop :=
  match st.1 with
  | None =>
      st.2 = infinity
      /\ (forall m, m ∈ scanned -> m ∉ visited -> (d m <? infinity)%float = false)
  | Some b =>
      st.2 = d b
      /\ (b ∉ visited)
      /\ (d b <? infinity)%float = true
      /\ exists before after,
          scanned = before ++ b :: after
          /\ (forall m, m ∈ before -> m ∉ visited ->
                        (d m <? infinity)%float = true -> (d b <? d m)%float = true)
          /\ (forall m, m ∈ before ++ after -> m ∉ visited ->
                        (d m <? d b)%float = false)
  end.

(** ** Sample data *)

Module Sample.

Definition emp (id nm prob av : string) : employee :=
  {| e_id := PStr id; name := PStr nm;
     problem_occured := PStr prob; availability := Some (PStr av) |}.

Definition ticket (loc prob : string) : customer :=
  {| location := PStr loc; c_problem_occured := PStr prob |}.

Definition e1 : employee := emp "E1" "Asha" "leak" "yes".
Definition e2 : employee := emp "E2" "Ravi" "Leak" " Available ".
Definition e3 : employee := emp "E3" "Mina" "leak" "Y".
Definition e4 : employee := emp "E4" "Omar" "leak" "No".
Definition e5 : employee := emp "E5" "Lata" "wiring" "TRUE".

Definition tickets : list customer :=
  [ticket "A" "leak"; ticket "" "leak"; ticket "B" "leak";
   {| location := PStr "D"; c_problem_occured := PNone |};
   ticket "A" "leak"].

(** A geocache of four points. *)
Definition geocache : gmap string coord :=
  <["A" := (10, 10)%float]>
    (<["B" := (10, 11)%float]>
       (<["C" := (10, 10.5)%float]>
          (<["D" := (12, 10)%float]> ∅))).

(** A distance for the examples: the sum of the differences in
    latitude and in longitude. It stands in for [haversine], which
    needs the C library. *)
Definition flat_distance (a b : coord) : float :=
  (abs (a.1 - b.1) + abs (a.2 - b.2))%float.

(** The nearest integer to [n / d], ties to even. *)
Definition rne_div (n d : Z) : Z :=
  let q := (n / d)%Z in
  match (2 * (n mod d) ?= d)%Z with
  | Lt => q
  | Gt => (q + 1)%Z
  | Eq => if Z.even q then q else (q + 1)%Z
  end.

(** A rounding to two decimals for the examples: the exact value is
    rounded to a multiple of 1/100, ties to even, and the result is
    the nearest binary64 number. *)
Definition round2 (x : float) : float :=
  match Prim2SF x with
  | S754_finite s m e =>
      let q := if (0 <=? e)%Z then (Zpos m * 2 ^ e * 100)%Z
               else rne_div (Zpos m * 100) (2 ^ (- e)) in
      match q with
      | Zpos p =>
          SF2Prim (SFdiv prec emax (S754_finite s p 0) (S754_finite false 100 0))
      | _ => if s then (-0)%float else 0%float
      end
  | _ => x
  end.

(** The renderer of the examples: the stops joined by arrows. *)
Definition render (route : list string) (route_coords : list coord) : string :=
  String.concat " > " route.

End Sample.

(** ** Further definitions used by the statements *)

(** The dict [coords] written from its keys: each key with the point the
    geocache holds for it. *)
Definition coords_of (GEOCACHE : gmap string coord) (nodes : list string)
    : coord_dict :=
  omap (fun k => (fun c => (k, c)) <$> GEOCACHE !! k) nodes.

(** * Properties *)

(** ** The assignment engine *)

Lemma py_eqb_refl v : py_eqb v v = true.
Proof.
  destruct v as [|b|z|s]; simpl; auto.
  - by destruct b.
  - apply Z.eqb_refl.
  - apply String.eqb_refl.
Qed.

Lemma py_eqb_sym v w : py_eqb v w = py_eqb w v.
Proof.
  destruct v as [|a|a|a], w as [|b|b|b]; simpl; auto.
  - by destruct a, b.
  - apply Z.eqb_sym.
  - apply String.eqb_sym.
Qed.

Lemma py_eqb_trans u v w :
  py_eqb u v = true -> py_eqb v w = true -> py_eqb u w = true.
Proof.
  destruct u as [|a|a|a], v as [|b|b|b], w as [|c|c|c]; simpl;
    try discriminate; auto;
    rewrite ?Z.eqb_eq, ?String.eqb_eq;
    try (destruct a, b; simpl; congruence);
    try (destruct b, c; simpl; congruence);
    try (destruct a, c; simpl; congruence);
    try (destruct a; simpl; congruence);
    try (destruct b; simpl; congruence);
    try (destruct c; simpl; congruence);
    try congruence.
Qed.

(** Two keys that are equal select the same entries. *)
Lemma py_eqb_congr k k' p : py_eqb k' k = true -> py_eqb k' p = py_eqb k p.
Proof.
  intros Hk. destruct (py_eqb k p) eqn:Hp.
  - by apply py_eqb_trans with k.
  - destruct (py_eqb k' p) eqn:Hp'; auto.
    rewrite <- Hp. symmetry. apply py_eqb_trans with k'; auto.
    by rewrite py_eqb_sym.
Qed.

Lemma dict_get_setdefault_append d k v p :
  dict_get (setdefault_append d k v) p =
  if py_eqb k p then dict_get d p ++ [v] else dict_get d p.
Proof.
  induction d as [|[k' l] rest IH]; simpl.
  - by destruct (py_eqb k p).
  - destruct (py_eqb k' k) eqn:Hk; simpl.
    + rewrite (py_eqb_congr _ _ p Hk). by destruct (py_eqb k p).
    + rewrite IH. destruct (py_eqb k' p) eqn:Hp; auto.
      destruct (py_eqb k p) eqn:Hp'; auto.
      assert (py_eqb k' k = true); [|congruence].
      apply py_eqb_trans with p; auto. by rewrite py_eqb_sym.
Qed.

Lemma dict_get_fold_group customers : forall d p,
  dict_get (fold_left group_step customers d) p =
  dict_get d p ++ locations_for customers p.
Proof.
  unfold locations_for.
  induction customers as [|c cs IH]; intros d p; simpl.
  - by rewrite app_nil_r.
  - rewrite IH. unfold group_step, ticket_ok.
    destruct (truthy (location c)), (truthy (c_problem_occured c)); simpl; auto.
    rewrite dict_get_setdefault_append.
    destruct (py_eqb (c_problem_occured c) p); simpl; auto.
    by rewrite <- app_assoc.
Qed.

Lemma dict_get_group_by_problem customers p :
  dict_get (group_by_problem customers) p = locations_for customers p.
Proof. unfold group_by_problem. by rewrite dict_get_fold_group. Qed.

Lemma assign_step_spec customers acc emp :
  assign_step (group_by_problem customers) acc emp =
  acc ++ option_list (assignment_of customers emp).
Proof.
  unfold assign_step, assignment_of.
  rewrite dict_get_group_by_problem.
  destruct (is_available emp); simpl.
  - destruct (locations_for customers (problem_occured emp)); simpl;
      by rewrite ?app_nil_r.
  - by rewrite app_nil_r.
Qed.

Lemma fold_assign_step customers employees : forall acc,
  fold_left (assign_step (group_by_problem customers)) employees acc =
  acc ++ omap (assignment_of customers) employees.
Proof.
  induction employees as [|e es IH]; intros acc; simpl.
  - by rewrite app_nil_r.
  - rewrite IH, assign_step_spec.
    destruct (assignment_of customers e); simpl.
    + by rewrite <- app_assoc.
    + by rewrite app_nil_r.
Qed.

Lemma assign_locations_omap employees customers :
  assign_locations employees customers = omap (assignment_of customers) employees.
Proof. unfold assign_locations. by rewrite fold_assign_step. Qed.

Lemma is_available_tokens emp :
  is_available emp = true <->
  avail_token emp = "yes" \/ avail_token emp = "1" \/
  avail_token emp = "true" \/ avail_token emp = "available".
Proof.
  unfold is_available, avail_tokens. simpl.
  rewrite !orb_true_iff, !String.eqb_eq. intuition discriminate.
Qed.

Lemma elem_of_assign_locations employees customers a :
  a ∈ assign_locations employees customers <->
  exists emp, emp ∈ employees /\ assignment_of customers emp = Some a.
Proof.
  rewrite assign_locations_omap, list_elem_of_omap. naive_solver.
Qed.

Lemma assign_locations_app es1 es2 customers :
  assign_locations (es1 ++ es2) customers =
  assign_locations es1 customers ++ assign_locations es2 customers.
Proof. rewrite !assign_locations_omap. apply omap_app. Qed.

(** *** The categories are matched as they are written *)

(** C2, as the code has it. [assign_locations] returns, in the order of
    the employees, one assignment for every employee that is available and
    has at least one matching ticket, and nothing else. The assignment
    carries the locations of all the tickets with a truthy location and a
    truthy category whose category is equal ([==]) to the employee's, in
    ticket order and with repetitions; no case folding and no trimming
    take part in the comparison. *)
Theorem assign_locations_exact_category employees customers :
  assign_locations employees customers =
  omap (fun emp =>
          if is_available emp then
            match map location
                    (List.filter
                       (fun c => truthy (location c)
                                 && truthy (c_problem_occured c)
                                 && py_eqb (c_problem_occured c) (problem_occured emp))
                       customers) with
            | [] => None
            | locs => Some (make_assignment emp locs)
            end
          else None) employees.
Proof.
  rewrite assign_locations_omap.
  unfold assignment_of, locations_for, ticket_ok. reflexivity.
Qed.

(** C2 fails as stated: an available employee whose category is "Leak"
    and a ticket whose category is "leak" match once case is folded, and
    the employee receives no assignment. *)
Lemma assign_locations_case_sensitive :
  is_available Sample.e2 = true
  /\ locations_norm [Sample.ticket "A" "leak"] (problem_occured Sample.e2) = [PStr "A"]
  /\ assign_locations [Sample.e2] [Sample.ticket "A" "leak"] = [].
Proof. by vm_compute. Qed.

(** *** Availability *)

(** C3, as the code has it. An assignment is returned for an employee
    exactly when the availability field, trimmed and lower-cased, is one
    of yes, 1, true, available, and a ticket matches; an employee whose
    availability is "No" changes nothing in the output. *)
Theorem assign_locations_availability customers :
  (forall employees a,
      a ∈ assign_locations employees customers <->
      exists emp, emp ∈ employees
        /\ (avail_token emp = "yes" \/ avail_token emp = "1" \/
            avail_token emp = "true" \/ avail_token emp = "available")
        /\ locations_for customers (problem_occured emp) <> []
        /\ a = make_assignment emp (locations_for customers (problem_occured emp)))
  /\ (forall es1 emp es2,
        availability emp = Some (PStr "No") ->
        assign_locations (es1 ++ emp :: es2) customers =
        assign_locations (es1 ++ es2) customers).
Proof.
  split.
  - intros employees a. rewrite elem_of_assign_locations.
    split.
    + intros (emp & Hin & Ha). exists emp. split; [done|].
      unfold assignment_of in Ha.
      destruct (is_available emp) eqn:Hav; [|done].
      apply is_available_tokens in Hav. split; [done|].
      destruct (locations_for customers (problem_occured emp)) eqn:Hl; [done|].
      split; [done|]. congruence.
    + intros (emp & Hin & Htok & Hne & ->). exists emp. split; [done|].
      unfold assignment_of.
      apply is_available_tokens in Htok. rewrite Htok.
      by destruct (locations_for customers (problem_occured emp)).
  - intros es1 emp es2 Hno.
    rewrite !assign_locations_app. f_equal.
    change (emp :: es2) with ([emp] ++ es2).
    rewrite assign_locations_app.
    rewrite (assign_locations_omap [emp]). simpl.
    unfold assignment_of, is_available, avail_token. by rewrite Hno.
Qed.

Lemma assign_locations_availability_witness :
  locations_for Sample.tickets (problem_occured Sample.e4)
    = [PStr "A"; PStr "B"; PStr "A"]
  /\ assign_locations ([Sample.e1] ++ Sample.e4 :: [Sample.e5]) Sample.tickets =
     assign_locations ([Sample.e1] ++ [Sample.e5]) Sample.tickets.
Proof.
  split.
  - reflexivity.
  - apply (proj2 (assign_locations_availability Sample.tickets)). reflexivity.
Defined.

(** C3 fails as stated: an employee whose availability is "Y" has a
    matching ticket and is left out, because y is not one of the tokens. *)
Lemma assign_locations_y_excluded :
  avail_token Sample.e3 = "y"
  /\ locations_for Sample.tickets (problem_occured Sample.e3)
     = [PStr "A"; PStr "B"; PStr "A"]
  /\ assign_locations [Sample.e3] Sample.tickets = [].
Proof. by vm_compute. Qed.

(** *** Tickets that are skipped *)

(** C9. A ticket whose location or whose category is missing or falsy
    takes no part in the grouping: the result is the one obtained without
    the ticket, wherever it stands in the list. *)
Theorem assign_locations_skips_falsy employees cs1 c cs2 :
  truthy (location c) = false \/ truthy (c_problem_occured c) = false ->
  assign_locations employees (cs1 ++ c :: cs2) =
  assign_locations employees (cs1 ++ cs2).
Proof.
  intros Hc. rewrite !assign_locations_omap.
  assert (forall p, locations_for (cs1 ++ c :: cs2) p = locations_for (cs1 ++ cs2) p)
    as Hloc.
  { intros p. unfold locations_for. rewrite !List.filter_app. simpl.
    assert (ticket_ok c = false) as ->; [|done].
    unfold ticket_ok. destruct Hc as [-> | ->]; [done|apply andb_false_r]. }
  assert (forall emp, assignment_of (cs1 ++ c :: cs2) emp = assignment_of (cs1 ++ cs2) emp)
    as Hfun.
  { intros emp. unfold assignment_of. by rewrite Hloc. }
  induction employees as [|emp es IH]; [done|].
  csimpl. by rewrite IH, Hfun.
Qed.

Lemma assign_locations_skips_falsy_witness :
  assign_locations [Sample.e1]
    ([Sample.ticket "A" "leak"] ++ Sample.ticket "" "leak" :: [Sample.ticket "B" "leak"]) =
  assign_locations [Sample.e1]
    ([Sample.ticket "A" "leak"] ++ [Sample.ticket "B" "leak"]).
Proof.
  apply (assign_locations_skips_falsy [Sample.e1] [Sample.ticket "A" "leak"]
           (Sample.ticket "" "leak") [Sample.ticket "B" "leak"]).
  left. reflexivity.
Defined.

(** ** The order of binary64 numbers *)

(** The route planner compares distances with [<]; the facts about the
    comparison that the proofs use are derived here from the
    specification of [PrimFloat.ltb]. *)

Module FloatOrder.

Local Ltac compare_cases :=
  change PosDef.Pos.compare_cont with Pos.compare_cont in *;
  fold Pos.compare in *;
  repeat match goal with
    | |- context [(?a ?= ?b)%Z] => destruct (Z.compare_spec a b); subst
    | |- context [(?a ?= ?b)%positive] => destruct (Pos.compare_spec a b); subst
    end;
  simpl; try discriminate; try reflexivity; try lia.

Lemma SFltb_trans x y z :
  SFltb x y = true -> SFltb y z = true -> SFltb x z = true.
Proof.
  unfold SFltb.
  destruct x as [sx|sx| |sx mx ex], y as [sy|sy| |sy my ey],
           z as [sz|sz| |sz mz ez]; simpl;
    try discriminate; try reflexivity;
    try destruct sx; try destruct sy; try destruct sz;
    try discriminate; try reflexivity; compare_cases.
Qed.

(** When [p] is not below [m] the other way round, with [m] a number,
    whatever is below [p] is below [m]. *)
Lemma SFltb_le_trans b p m :
  SFltb b p = true -> SFltb m p = false -> m <> S754_nan ->
  SFltb b m = true.
Proof.
  unfold SFltb.
  destruct b as [sb|sb| |sb mb eb], p as [sp|sp| |sp mp ep],
           m as [sm|sm| |sm mm em]; simpl;
    try discriminate; try reflexivity; try congruence;
    try destruct sb; try destruct sp; try destruct sm;
    try discriminate; try reflexivity; compare_cases.
Qed.

Lemma SFltb_irrefl x : SFltb x x = false.
Proof.
  unfold SFltb. destruct x as [s|s| |s m e]; simpl; try reflexivity;
    destruct s; try reflexivity; compare_cases.
Qed.

Lemma ltb_trans (x y z : float) :
  (x <? y)%float = true -> (y <? z)%float = true -> (x <? z)%float = true.
Proof. rewrite !ltb_spec. apply SFltb_trans. Qed.

Lemma ltb_irrefl (x : float) : (x <? x)%float = false.
Proof. rewrite ltb_spec. apply SFltb_irrefl. Qed.

(** A float below infinity is a number. *)
Lemma ltb_infinity_not_nan (x : float) :
  (x <? infinity)%float = true -> Prim2SF x <> S754_nan.
Proof.
  rewrite ltb_spec. intros H Hn. rewrite Hn in H. discriminate.
Qed.

Lemma ltb_le_trans (b p m : float) :
  (b <? p)%float = true -> (m <? p)%float = false ->
  (m <? infinity)%float = true ->
  (b <? m)%float = true.
Proof.
  intros Hbp Hmp Hm. apply ltb_infinity_not_nan in Hm.
  rewrite ltb_spec in *. by apply SFltb_le_trans with (Prim2SF p).
Qed.

End FloatOrder.

(** ** The route planner *)

Lemma coords_get_set d k v k' :
  coords_get (coords_set d k v) k' =
  if String.eqb k k' then Some v else coords_get d k'.
Proof.
  induction d as [|[k0 v0] rest IH]; simpl.
  - done.
  - destruct (String.eqb k0 k) eqn:E0; simpl.
    + apply String.eqb_eq in E0 as ->. by destruct (String.eqb k k').
    + rewrite IH. destruct (String.eqb k0 k') eqn:E1; [|done].
      apply String.eqb_eq in E1 as ->. by rewrite String.eqb_sym, E0.
Qed.

Lemma coords_get_Some_keys d k : is_Some (coords_get d k) <-> k ∈ coords_keys d.
Proof.
  unfold coords_keys. induction d as [|[k0 v0] rest IH]; simpl.
  - split; [intros [? ?]; discriminate | intros H; inversion H].
  - rewrite elem_of_cons. destruct (String.eqb k0 k) eqn:E.
    + apply String.eqb_eq in E as ->. split; eauto.
    + apply String.eqb_neq in E. rewrite IH.
      split; [by right | intros [->|?]; [congruence | done]].
Qed.

Lemma coords_keys_set d k v :
  coords_keys (coords_set d k v) =
  if bool_decide (k ∈ coords_keys d) then coords_keys d else coords_keys d ++ [k].
Proof.
  unfold coords_keys. induction d as [|[k0 v0] rest IH]; cbn [coords_set map fst].
  - rewrite bool_decide_eq_false_2; [done|]. intros H; inversion H.
  - destruct (String.eqb k0 k) eqn:E; cbn [map fst].
    + apply String.eqb_eq in E as ->.
      rewrite bool_decide_eq_true_2; [done|]. by left.
    + apply String.eqb_neq in E. rewrite IH.
      destruct (decide (k ∈ map fst rest)) as [Hin|Hin].
      * rewrite (bool_decide_eq_true_2 _ Hin).
        rewrite bool_decide_eq_true_2; [done|]. by right.
      * rewrite (bool_decide_eq_false_2 _ Hin).
        rewrite bool_decide_eq_false_2; [done|].
        rewrite elem_of_cons. intros [->|?]; [congruence | done].
Qed.

Lemma filter_distinct_ne (x : string) (l : list string) (P : string -> Prop)
    `{!forall y, Decision (P y)} :
  filter P (filter (fun y => y <> x) l) = filter (fun y => y <> x) (filter P l).
Proof.
  induction l as [|a l IH]; [done|].
  rewrite !filter_cons.
  repeat (case_decide; rewrite ?filter_cons; simplify_eq); rewrite ?IH; done.
Qed.

Lemma distinct_filter (P : string -> Prop) `{!forall y, Decision (P y)} l :
  distinct (filter P l) = filter P (distinct l).
Proof.
  induction l as [|a l IH]; [done|].
  simpl. rewrite !filter_cons. case_decide; simpl.
  - by rewrite IH, filter_distinct_ne.
  - rewrite IH. symmetry. apply list_filter_filter_l.
    intros y ? ->. done.
Qed.

Lemma elem_of_distinct l x : x ∈ distinct l <-> x ∈ l.
Proof.
  induction l as [|a l IH]; [done|].
  simpl. rewrite !elem_of_cons, list_elem_of_filter, IH.
  destruct (decide (x = a)); naive_solver.
Qed.

Lemma NoDup_distinct l : NoDup (distinct l).
Proof.
  induction l as [|a l IH]; simpl; [constructor|].
  constructor.
  - rewrite list_elem_of_filter. naive_solver.
  - by apply NoDup_filter.
Qed.


Lemma filter_all (P : string -> Prop) `{!forall y, Decision (P y)} (l : list string) :
  (forall y, y ∈ l -> P y) -> filter P l = l.
Proof.
  induction l as [|a l IH]; intros Hall; [done|].
  rewrite filter_cons_True by (apply Hall; left).
  rewrite IH; [done|]. intros y Hy. apply Hall. by right.
Qed.

Lemma distinct_NoDup l : NoDup l -> distinct l = l.
Proof.
  induction 1 as [|a l Hin Hnd IH]; [done|].
  simpl. rewrite IH. f_equal.
  apply filter_all. intros y Hy ->. done.
Qed.

Section PlannerFacts.

Variable GEOCACHE : gmap string coord.
Variable haversine : coord -> coord -> float.
Variable round2 : float -> float.

Local Abbreviation resolves := (fun loc : string => is_Some (GEOCACHE !! loc)).
Local Abbreviation dist := (geo_dist GEOCACHE haversine).

(** *** The dict [coords] *)

Lemma coords_step_keys d x :
  coords_keys (coords_step GEOCACHE d x) =
  if decide (resolves x)
  then if bool_decide (x ∈ coords_keys d) then coords_keys d
       else coords_keys d ++ [x]
  else coords_keys d.
Proof.
  unfold coords_step. destruct (GEOCACHE !! x) as [val|] eqn:Hx.
  - rewrite decide_True by eauto. apply coords_keys_set.
  - rewrite decide_False; [done|]. by intros [? ?].
Qed.

Lemma fold_coords_step_keys locations : forall d ks,
  coords_keys d = ks ->
  coords_keys (fold_left (coords_step GEOCACHE) locations d) =
  ks ++ filter (fun y => y ∉ ks) (distinct (filter resolves locations)).
Proof.
  induction locations as [|x r IH]; intros d ks Hks; simpl.
  - by rewrite app_nil_r.
  - pose proof (coords_step_keys d x) as Hstep. rewrite Hks in Hstep.
    rewrite filter_cons. cbv beta in *.
    destruct (decide (is_Some (GEOCACHE !! x))) as [Hx|Hx].
    + cbn [distinct]. case_bool_decide as Hin.
      * rewrite (IH _ _ Hstep).
        rewrite filter_cons_False by (intros Hn; by apply Hn).
        f_equal. symmetry. apply list_filter_filter_l.
        intros y Hy ->. done.
      * rewrite (IH _ _ Hstep).
        rewrite filter_cons_True by done.
        rewrite <- app_assoc. cbn [app]. do 2 f_equal.
        rewrite list_filter_filter. apply list_filter_iff.
        intros y. rewrite elem_of_app, list_elem_of_singleton. tauto.
    + by rewrite (IH _ _ Hstep).
Qed.

Lemma build_coords_keys locations :
  coords_keys (build_coords GEOCACHE locations) = route_nodes GEOCACHE locations.
Proof.
  unfold build_coords, route_nodes.
  rewrite (fold_coords_step_keys _ [] []) by done. simpl.
  apply filter_all. intros y _ Hy. inversion Hy.
Qed.

Lemma fold_coords_step_get locations : forall d,
  (forall k c, coords_get d k = Some c -> GEOCACHE !! k = Some c) ->
  forall k c,
    coords_get (fold_left (coords_step GEOCACHE) locations d) k = Some c ->
    GEOCACHE !! k = Some c.
Proof.
  induction locations as [|x r IH]; intros d Hd k c; simpl; [apply Hd|].
  apply IH. clear k c. intros k c. unfold coords_step.
  destruct (GEOCACHE !! x) as [[lat lon]|] eqn:Hx; [|apply Hd].
  rewrite coords_get_set. simpl.
  destruct (String.eqb x k) eqn:E; [|apply Hd].
  apply String.eqb_eq in E as <-. by intros [= <-].
Qed.

(** On its keys [coords] holds what the geocache holds. *)
Lemma build_coords_get locations k :
  k ∈ route_nodes GEOCACHE locations ->
  exists c, coords_get (build_coords GEOCACHE locations) k = Some c
            /\ GEOCACHE !! k = Some c.
Proof.
  rewrite <- build_coords_keys, <- coords_get_Some_keys.
  intros [c Hc]. exists c. split; [done|].
  revert Hc. apply fold_coords_step_get. intros ? ?; discriminate.
Qed.

Lemma coords_mem_build locations k :
  coords_mem (build_coords GEOCACHE locations) k =
  bool_decide (k ∈ route_nodes GEOCACHE locations).
Proof.
  unfold coords_mem. rewrite <- build_coords_keys.
  destruct (coords_get _ k) eqn:E.
  - rewrite bool_decide_eq_true_2; [done|].
    apply coords_get_Some_keys. by rewrite E.
  - rewrite bool_decide_eq_false_2; [done|].
    rewrite <- coords_get_Some_keys, E. by intros [? ?].
Qed.

(** *** The scan for the nearest node *)

Lemma nearest_scan_pure coords visited current todo : forall st,
  (forall k, k ∈ current :: todo ->
     exists c, coords_get coords k = Some c /\ GEOCACHE !! k = Some c) ->
  nearest_scan haversine coords visited current todo st.1 st.2 =
  Some (scan_pure (dist current) visited todo st).
Proof.
  induction todo as [|n rest IH]; intros [nearest ndist] Hc; simpl.
  - done.
  - assert (forall k, k ∈ current :: rest ->
              exists c, coords_get coords k = Some c /\ GEOCACHE !! k = Some c) as Hc'.
    { intros k Hk. apply Hc. rewrite !elem_of_cons in *. tauto. }
    case_bool_decide as Hv; [apply (IH (nearest, ndist) Hc')|].
    destruct (Hc current) as (cc & Hcc & Hgc); [by left|].
    destruct (Hc n) as (cn & Hcn & Hgn); [right; by left|].
    rewrite Hcc, Hcn. simpl.
    assert (dist current n = haversine cc cn) as ->.
    { unfold geo_dist. by rewrite Hgc, Hgn. }
    destruct (haversine cc cn <? ndist)%float.
    + apply (IH (Some n, haversine cc cn) Hc').
    + apply (IH (nearest, ndist) Hc').
Qed.

Lemma scan_pure_inv (d : string -> float) visited todo : forall scanned st,
  NoDup (scanned ++ todo) ->
  scan_inv d visited scanned st ->
  scan_inv d visited (scanned ++ todo) (scan_pure d visited todo st).
Proof.
  induction todo as [|n rest IH]; intros scanned st Hnd Hinv; simpl.
  { by rewrite app_nil_r. }
  rewrite cons_middle, app_assoc in Hnd |- *.
    assert (n ∉ scanned) as Hfresh.
    { apply NoDup_app in Hnd as [Hnd _]. apply NoDup_app in Hnd as (_ & Hd & _).
      intros Hn. apply (Hd n Hn). by left. }
    case_bool_decide as Hv.
    { (* a visited node is passed over *)
      apply IH; [done|]. unfold scan_inv in *.
      destruct st.1 as [b|].
      - destruct Hinv as (Hst & Hb & Hfin & before & after & -> & Hbef & Haft).
        split_and!; [done..|].
        exists before, (after ++ [n]). split_and!.
        + by rewrite <- app_assoc.
        + done.
        + intros m Hm Hmv. rewrite app_assoc in Hm.
          apply elem_of_app in Hm as [Hm|Hm]; [by apply Haft|].
          apply list_elem_of_singleton in Hm as ->. done.
      - destruct Hinv as [Hst Hall]. split; [done|].
        intros m Hm Hmv. apply elem_of_app in Hm as [Hm|Hm]; [by apply Hall|].
        apply list_elem_of_singleton in Hm as ->. done. }
    destruct (d n <? st.2)%float eqn:Hlt.
    { (* a strictly nearer node replaces the candidate *)
      apply IH; [done|]. unfold scan_inv in *. simpl.
      destruct st.1 as [b|].
      - destruct Hinv as (Hst & Hb & Hfin & before & after & -> & Hbef & Haft).
        rewrite Hst in Hlt.
        assert ((d n <? infinity)%float = true) as Hnfin
          by (by apply FloatOrder.ltb_trans with (d b)).
        split_and!; [done..|].
        exists (before ++ b :: after), []. split_and!; [done| |].
        + intros m Hm Hmv Hmfin.
          apply FloatOrder.ltb_le_trans with (d b); [done| |done].
          rewrite elem_of_app, elem_of_cons in Hm.
          destruct Hm as [Hm|[->|Hm]].
          * apply Haft; [|done]. apply elem_of_app. by left.
          * apply FloatOrder.ltb_irrefl.
          * apply Haft; [|done]. apply elem_of_app. by right.
        + intros m Hm Hmv. rewrite app_nil_r in Hm.
          destruct (d m <? d n)%float eqn:Hmn; [|done].
          pose proof (FloatOrder.ltb_trans _ _ _ Hmn Hlt) as Hmb.
          rewrite elem_of_app, elem_of_cons in Hm.
          destruct Hm as [Hm|[->|Hm]].
          * rewrite Haft in Hmb; [done| |done]. apply elem_of_app. by left.
          * by rewrite FloatOrder.ltb_irrefl in Hmb.
          * rewrite Haft in Hmb; [done| |done]. apply elem_of_app. by right.
      - destruct Hinv as [Hst Hall]. rewrite Hst in Hlt.
        split_and!; [done..|].
        exists scanned, []. split_and!; [done| |].
        + intros m Hm Hmv Hmfin. rewrite Hall in Hmfin; done.
        + intros m Hm Hmv. rewrite app_nil_r in Hm.
          destruct (d m <? d n)%float eqn:Hmn; [|done].
          pose proof (FloatOrder.ltb_trans _ _ _ Hmn Hlt) as Hmb.
          rewrite Hall in Hmb; done. }
    (* the candidate stays *)
    apply IH; [done|]. unfold scan_inv in *.
    destruct st.1 as [b|].
    - destruct Hinv as (Hst & Hb & Hfin & before & after & -> & Hbef & Haft).
      rewrite Hst in Hlt.
      split_and!; [done..|].
      exists before, (after ++ [n]). split_and!.
      + by rewrite <- app_assoc.
      + done.
      + intros m Hm Hmv. rewrite app_assoc in Hm.
        apply elem_of_app in Hm as [Hm|Hm]; [by apply Haft|].
        apply list_elem_of_singleton in Hm as ->. done.
    - destruct Hinv as [Hst Hall]. rewrite Hst in Hlt. split; [done|].
      intros m Hm Hmv. apply elem_of_app in Hm as [Hm|Hm]; [by apply Hall|].
      apply list_elem_of_singleton in Hm as ->. done.
Qed.

(** *** The loop over the unvisited nodes *)

Lemma route_within_nodes (route nodes : list string) :
  NoDup route -> (forall x, x ∈ route -> x ∈ nodes) ->
  length route <= length nodes.
Proof. intros Hnd Hsub. by apply submseteq_length, NoDup_submseteq. Qed.

Lemma route_covers_nodes (route nodes : list string) :
  NoDup route -> (forall x, x ∈ route -> x ∈ nodes) ->
  length nodes <= length route ->
  forall n, n ∈ nodes -> n ∈ route.
Proof.
  intros Hnd Hsub Hlen n Hn.
  assert (route ≡ₚ nodes) as Hp.
  { apply submseteq_length_Permutation; [by apply NoDup_submseteq|done]. }
  by rewrite Hp.
Qed.

Lemma route_loop_run coords nodes :
  NoDup nodes ->
  (forall k, k ∈ nodes ->
     exists c, coords_get coords k = Some c /\ GEOCACHE !! k = Some c) ->
  forall fuel route visited total current,
    visited = list_to_set route ->
    NoDup route ->
    (forall x, x ∈ route -> x ∈ nodes) ->
    current ∈ nodes ->
    length nodes < fuel + length route ->
    exists route' total',
      route_loop haversine fuel coords nodes route visited total current
      = Some (route', total')
      /\ greedy_run GEOCACHE haversine nodes route current total route' total'.
Proof.
  intros Hnodes Hcoords.
  induction fuel as [|fuel IH];
    intros route visited total current Hvis Hnd Hsub Hcur Hfuel.
  { pose proof (route_within_nodes route nodes Hnd Hsub). simpl in Hfuel. lia. }
  assert (forall m, m ∈ visited <-> m ∈ route) as Hmem.
  { intros m. rewrite Hvis. apply elem_of_list_to_set. }
  assert (size visited = length route) as Hsize.
  { rewrite Hvis. by apply size_list_to_set. }
  cbn [route_loop]. rewrite Hsize.
  destruct (Nat.ltb_spec (length route) (length nodes)) as [Hlt|Hge].
  - assert (nearest_scan haversine coords visited current nodes None infinity
            = Some (scan_pure (dist current) visited nodes (None, infinity)))
      as ->.
    { apply (nearest_scan_pure coords visited current nodes (None, infinity)).
      intros k Hk. apply Hcoords. apply elem_of_cons in Hk as [->|Hk]; done. }
    pose proof (scan_pure_inv (dist current) visited nodes [] (None, infinity)
                  Hnodes) as Hinv.
    simpl in Hinv.
    destruct (scan_pure (dist current) visited nodes (None, infinity))
      as [[n|] ndist]; simpl.
    + destruct Hinv as (Hnd' & Hnv & Hfin & before & after & Hsplit & Hbef & Haft).
      { split; [done|]. intros m Hm. inversion Hm. }
      simpl in Hnd'. subst ndist.
      assert (n ∈ nodes) as Hn.
      { rewrite Hsplit. apply elem_of_app. right. by left. }
      assert (n ∉ route) as Hnr by (by rewrite <- Hmem).
      destruct (IH (route ++ [n]) (visited ∪ {[n]})
                  (total + dist current n)%float n)
        as (route' & total' & Hloop & Hrun).
      * rewrite Hvis, list_to_set_app_L. simpl. by rewrite union_empty_r_L.
      * apply NoDup_app. split_and!; [done| |apply NoDup_singleton].
        intros x Hx Hx'. apply list_elem_of_singleton in Hx' as ->. done.
      * intros x Hx. apply elem_of_app in Hx as [Hx|Hx]; [by apply Hsub|].
        apply list_elem_of_singleton in Hx as ->. done.
      * done.
      * rewrite length_app. simpl. lia.
      * exists route', total'. split; [done|].
        apply greedy_run_step with n; [|done].
        exists before, after. split_and!; [done..| |].
        -- intros m Hm Hmr. apply Hbef; [done|]. by rewrite Hmem.
        -- intros m Hm Hmr. apply Haft; [done|]. by rewrite Hmem.
    + destruct Hinv as [_ Hall].
      { split; [done|]. intros m Hm. inversion Hm. }
      exists route, total. split; [done|].
      apply greedy_run_stop. intros n Hn Hnr. apply Hall; [done|].
      by rewrite Hmem.
  - exists route, total. split; [done|].
    apply greedy_run_stop. intros n Hn Hnr. exfalso. apply Hnr.
    by apply (route_covers_nodes route nodes).
Qed.

(** *** What a walk guarantees *)

Lemma nearest_unvisited_node nodes route cur nxt :
  nearest_unvisited GEOCACHE haversine nodes route cur nxt ->
  nxt ∈ nodes /\ nxt ∉ route.
Proof.
  intros (before & after & -> & Hnr & _). split; [|done].
  apply elem_of_app. right. by left.
Qed.

Lemma greedy_run_route nodes route cur total route' total' :
  greedy_run GEOCACHE haversine nodes route cur total route' total' ->
  NoDup route ->
  NoDup route'
  /\ (forall x, x ∈ route' -> x ∈ route \/ x ∈ nodes)
  /\ (exists more, route' = route ++ more).
Proof.
  induction 1 as [route cur total Hstop
                 |route cur total nxt route' total' Hnear Hrun IH]; intros Hnd.
  - split_and!; [done|by left|]. exists []. by rewrite app_nil_r.
  - apply nearest_unvisited_node in Hnear as [Hn Hnr].
    destruct IH as (Hnd' & Hsub & more & ->).
    { apply NoDup_app. split_and!; [done| |apply NoDup_singleton].
      intros x Hx Hx'. apply list_elem_of_singleton in Hx' as ->. done. }
    split_and!; [done| |].
    + intros x Hx. destruct (Hsub x Hx) as [Hx'|Hx']; [|by right].
      apply elem_of_app in Hx' as [Hx'|Hx']; [by left|].
      apply list_elem_of_singleton in Hx' as ->. by right.
    + exists (nxt :: more). by rewrite <- app_assoc.
Qed.

Lemma finite_dists_spec nodes a b :
  finite_dists GEOCACHE haversine nodes = true ->
  a ∈ nodes -> b ∈ nodes -> (dist a b <? infinity)%float = true.
Proof.
  unfold finite_dists. rewrite forallb_forall. intros Hall Ha Hb.
  apply list_elem_of_In in Ha, Hb.
  specialize (Hall a Ha). rewrite forallb_forall in Hall. by apply Hall.
Qed.

(** When the distances are numbers the walk only stops with every node
    visited. *)
Lemma greedy_run_steps nodes route cur total route' total' :
  (forall a b, a ∈ nodes -> b ∈ nodes -> (dist a b <? infinity)%float = true) ->
  greedy_run GEOCACHE haversine nodes route cur total route' total' ->
  cur ∈ nodes ->
  greedy_steps GEOCACHE haversine nodes route cur total route' total'.
Proof.
  intros Hfin.
  induction 1 as [route cur total Hstop
                 |route cur total nxt route' total' Hnear Hrun IH]; intros Hcur.
  - apply greedy_steps_done. intros n Hn.
    destruct (decide (n ∈ route)) as [|Hnr]; [done|].
    specialize (Hstop n Hn Hnr). by rewrite Hfin in Hstop.
  - apply greedy_steps_next with nxt; [done|].
    apply IH. by apply nearest_unvisited_node in Hnear as [? _].
Qed.

Lemma greedy_steps_cover nodes route cur total route' total' :
  greedy_steps GEOCACHE haversine nodes route cur total route' total' ->
  forall n, n ∈ nodes -> n ∈ route'.
Proof. induction 1; auto. Qed.

(** *** The planner *)

Local Abbreviation greedy :=
  (greedy_route_from_coords GEOCACHE haversine round2).

(** The planner always returns: no lookup in [coords] fails and the
    fuel outlasts the loop. From a non-empty candidate set it returns
    the result of the walk from the start node, with the total
    rounded. *)
Lemma greedy_route_run locations depot :
  match route_nodes GEOCACHE locations with
  | [] => greedy locations depot = Some ([], 0%float)
  | first :: rest =>
      let nodes := first :: rest in
      let start := expected_start nodes depot first in
      start ∈ nodes /\
      exists route total,
        greedy locations depot = Some (route, round2 total)
        /\ greedy_run GEOCACHE haversine nodes [start] start 0%float route total
  end.
Proof.
  unfold greedy_route_from_coords.
  pose proof (build_coords_keys locations) as Hkeys.
  pose proof (build_coords_get locations) as Hget.
  pose proof (coords_mem_build locations) as Hmem.
  assert (NoDup (route_nodes GEOCACHE locations)) as Hnd
    by apply NoDup_distinct.
  rewrite Hkeys.
  destruct (route_nodes GEOCACHE locations) as [|first rest] eqn:Hnodes; [done|].
  cbv zeta.
  assert (start_node (build_coords GEOCACHE locations) depot first
          = expected_start (first :: rest) depot first) as ->.
  { unfold start_node, expected_start. destruct depot; try done.
    by rewrite Hmem. }
  set (start := expected_start (first :: rest) depot first).
  assert (start ∈ first :: rest) as Hstart.
  { unfold start, expected_start. destruct depot; try by left.
    case_bool_decide; [done|by left]. }
  split; [done|].
  destruct (route_loop_run (build_coords GEOCACHE locations) (first :: rest)
              Hnd Hget (length (first :: rest)) [start] {[start]} 0%float start)
    as (route & total & Hloop & Hrun).
  - simpl. by rewrite union_empty_r_L.
  - apply NoDup_singleton.
  - intros x Hx. apply list_elem_of_singleton in Hx as ->. done.
  - done.
  - simpl. lia.
  - exists route, total. by rewrite Hloop.
Qed.

Lemma elem_of_route_nodes locations x :
  x ∈ route_nodes GEOCACHE locations <-> x ∈ locations /\ is_Some (GEOCACHE !! x).
Proof.
  unfold route_nodes. rewrite elem_of_distinct, list_elem_of_filter. tauto.
Qed.

Lemma route_nodes_resolved locations :
  (forall x, x ∈ locations -> is_Some (GEOCACHE !! x)) ->
  route_nodes GEOCACHE locations = distinct locations.
Proof. intros Hall. unfold route_nodes. by rewrite filter_all. Qed.

Lemma greedy_route_total locations depot :
  exists route d, greedy locations depot = Some (route, d).
Proof.
  pose proof (greedy_route_run locations depot) as Hrun.
  destruct (route_nodes GEOCACHE locations); [eauto|].
  destruct Hrun as (_ & route & total & Heq & _). eauto.
Qed.

(** C5. The route never visits a location twice and holds only
    locations of the input that are in the geocache. When the input has
    no repeated key, all its keys are in the geocache and the distances
    between them are numbers below infinity, the route is a permutation
    of the input. *)
Theorem greedy_route_no_revisit locations depot :
  exists route d,
    greedy locations depot = Some (route, d)
    /\ NoDup route
    /\ (forall x, x ∈ route -> x ∈ locations /\ is_Some (GEOCACHE !! x))
    /\ (NoDup locations ->
        (forall x, x ∈ locations -> is_Some (GEOCACHE !! x)) ->
        finite_dists GEOCACHE haversine locations = true ->
        route ≡ₚ locations).
Proof.
  pose proof (greedy_route_run locations depot) as Hrun.
  pose proof (elem_of_route_nodes locations) as Hnodes.
  destruct (route_nodes GEOCACHE locations) as [|first rest] eqn:E.
  - exists [], 0%float. split_and!; [done|constructor|by intros x Hx; inversion Hx|].
    intros Hnd Hall _.
    rewrite (route_nodes_resolved _ Hall), (distinct_NoDup _ Hnd) in E.
    by rewrite E.
  - cbv zeta in Hrun. destruct Hrun as (Hstart & route & total & Heq & Hwalk).
    exists route, (round2 total).
    destruct (greedy_run_route _ _ _ _ _ _ Hwalk) as (Hnd & Hsub & _);
      [apply NoDup_singleton|].
    assert (forall x, x ∈ route -> x ∈ first :: rest) as Hsub'.
    { intros x Hx. destruct (Hsub x Hx) as [Hx'|Hx']; [|done].
      apply list_elem_of_singleton in Hx' as ->. done. }
    split_and!; [done..| |].
    + intros x Hx. apply Hnodes. by apply Hsub'.
    + intros Hndl Hall Hfin.
      assert (first :: rest = locations) as Hloc.
      { by rewrite <- E, (route_nodes_resolved _ Hall), (distinct_NoDup _ Hndl). }
      rewrite Hloc in *.
      apply NoDup_Permutation; [done..|].
      intros x. split; [by apply Hsub'|].
      apply (greedy_steps_cover locations [expected_start locations depot first]
               (expected_start locations depot first) 0%float route total).
      apply greedy_run_steps; [|done..].
      intros a b. by apply finite_dists_spec.
Qed.

(** C4, as the code has it. When all the locations are in the geocache
    and the distances between them are numbers below infinity, the
    route has as many stops as the input has distinct keys: a key given
    twice is visited once. The length is that of the input when no key
    is repeated. *)
Theorem greedy_route_length locations depot :
  (forall x, x ∈ locations -> is_Some (GEOCACHE !! x)) ->
  finite_dists GEOCACHE haversine locations = true ->
  exists route d,
    greedy locations depot = Some (route, d)
    /\ length route = length (distinct locations)
    /\ (NoDup locations -> length route = length locations).
Proof.
  intros Hall Hfin.
  pose proof (greedy_route_run locations depot) as Hrun.
  rewrite (route_nodes_resolved _ Hall) in Hrun.
  assert (exists route d, greedy locations depot = Some (route, d)
                          /\ length route = length (distinct locations))
    as (route & d & Heq & Hlen).
  { destruct (distinct locations) as [|first rest] eqn:E; [by exists [], 0%float|].
    cbv zeta in Hrun. destruct Hrun as (Hstart & route & total & Heq & Hwalk).
    exists route, (round2 total). split; [done|].
    destruct (greedy_run_route _ _ _ _ _ _ Hwalk) as (Hnd & Hsub & _);
      [apply NoDup_singleton|].
    apply Permutation_length, NoDup_Permutation; [done| |].
    { rewrite <- E. apply NoDup_distinct. }
    intros x. split.
    - intros Hx. destruct (Hsub x Hx) as [Hx'|Hx']; [|done].
      apply list_elem_of_singleton in Hx' as ->. done.
    - apply (greedy_steps_cover _ _ _ _ _ _
               (greedy_run_steps _ _ _ _ _ _
                  ltac:(intros a b Ha Hb; apply (finite_dists_spec locations);
                        [done|rewrite <- elem_of_distinct, E; done
                             |rewrite <- elem_of_distinct, E; done])
                  Hwalk Hstart)). }
  exists route, d. split_and!; [done..|].
  intros Hnd. by rewrite Hlen, distinct_NoDup.
Qed.

(** C6. From a non-empty list of locations of the geocache, at finite
    distances from one another, the planner starts at the depot when
    the depot is one of the locations and at the first location
    otherwise; it then walks as [greedy_steps] says, each turn
    appending the unvisited node nearest to the current one (no
    unvisited node is strictly nearer, and those scanned before it are
    strictly farther) and adding its distance to the total, until every
    location is visited; the distance returned is the total rounded to
    two decimals. *)
Theorem greedy_route_nearest_neighbour first others depot :
  (forall x, x ∈ first :: others -> is_Some (GEOCACHE !! x)) ->
  finite_dists GEOCACHE haversine (first :: others) = true ->
  exists route total,
    greedy (first :: others) depot = Some (route, round2 total)
    /\ head route = Some (expected_start (first :: others) depot first)
    /\ greedy_steps GEOCACHE haversine (distinct (first :: others))
         [expected_start (first :: others) depot first]
         (expected_start (first :: others) depot first) 0%float route total.
Proof.
  intros Hall Hfin.
  pose proof (greedy_route_run (first :: others) depot) as Hrun.
  rewrite (route_nodes_resolved _ Hall) in Hrun.
  assert (expected_start (distinct (first :: others)) depot first
          = expected_start (first :: others) depot first) as Hstart_eq.
  { unfold expected_start. destruct depot; try done.
    by rewrite (bool_decide_ext _ _ (elem_of_distinct (first :: others) s)). }
  cbn [distinct] in Hrun. cbv zeta in Hrun. cbn [distinct].
  change (first :: filter (fun y => y <> first) (distinct others))
    with (distinct (first :: others)) in *.
  rewrite Hstart_eq in Hrun.
  destruct Hrun as (Hstart & route & total & Heq & Hwalk).
  exists route, total. split_and!; [done| |].
  - destruct (greedy_run_route _ _ _ _ _ _ Hwalk) as (_ & _ & more & ->);
      [apply NoDup_singleton|done].
  - apply greedy_run_steps; [|done..].
    intros a b Ha Hb. apply (finite_dists_spec (first :: others)); [done|..];
      by apply elem_of_distinct.
Qed.

(** C8. With no location the planner returns the empty route and the
    distance 0.0, whatever the depot. With one location, found in the
    geocache, it returns that location alone and the distance 0.0,
    [round(0.0, 2)] being [0.0]. *)
Theorem greedy_route_boundary :
  (forall depot, greedy [] depot = Some ([], 0%float))
  /\ (forall loc depot,
        is_Some (GEOCACHE !! loc) ->
        round2 0%float = 0%float ->
        greedy [loc] depot = Some ([loc], 0%float)).
Proof.
  split; [done|].
  intros loc depot Hloc Hround.
  pose proof (greedy_route_run [loc] depot) as Hrun.
  rewrite route_nodes_resolved in Hrun.
  2:{ intros x Hx. apply list_elem_of_singleton in Hx as ->. done. }
  cbn [distinct filter list_filter] in Hrun. cbv zeta in Hrun.
  assert (expected_start [loc] depot loc = loc) as Hs.
  { unfold expected_start. destruct depot; try done.
    case_bool_decide as Hd; [|done].
    by apply list_elem_of_singleton in Hd. }
  rewrite Hs in Hrun.
  destruct Hrun as (_ & route & total & Heq & Hwalk).
  rewrite Heq. inversion Hwalk as [|? ? ? nxt ? ? Hnear]; subst.
  - by rewrite Hround.
  - apply nearest_unvisited_node in Hnear as [Hin Hout]. done.
Qed.

End PlannerFacts.

(** C5 at the four sample points, from the depot "B". *)
Lemma greedy_route_no_revisit_witness :
  exists route d,
    greedy_route_from_coords Sample.geocache Sample.flat_distance Sample.round2
      ["A"; "B"; "C"; "D"] (PStr "B") = Some (route, d)
    /\ NoDup route /\ route ≡ₚ ["A"; "B"; "C"; "D"].
Proof.
  destruct (greedy_route_no_revisit Sample.geocache Sample.flat_distance
              Sample.round2 ["A"; "B"; "C"; "D"] (PStr "B"))
    as (route & d & Heq & Hnd & Hin & Hperm).
  exists route, d. split_and!; [done..|].
  apply Hperm.
  - apply (bool_decide_unpack _). vm_compute. exact I.
  - apply Forall_forall, (bool_decide_unpack _). vm_compute. exact I.
  - reflexivity.
Defined.

(** C4 fails as stated: the key "A" given twice is in the geocache, and
    the route has one stop for the two entries of the input, whatever the
    distance function. *)
Lemma greedy_route_duplicates_merged :
  (forall x, x ∈ ["A"; "A"] -> is_Some (Sample.geocache !! x))
  /\ (forall haversine,
        greedy_route_from_coords Sample.geocache haversine Sample.round2
          ["A"; "A"] PNone = Some (["A"], 0%float))
  /\ length ["A"] < length ["A"; "A"].
Proof.
  split_and!; [|by intros; vm_compute|simpl; lia].
  apply Forall_forall, (bool_decide_unpack _). vm_compute. exact I.
Qed.

(** The walk stops early when a distance is not a number: the comparison
    with infinity fails, no nearest node is found and the loop is left.
    This is why the statements on the length of the route ask for
    distances below infinity. *)
Lemma greedy_route_nan_stops :
  greedy_route_from_coords Sample.geocache (fun _ _ => nan) Sample.round2
    ["A"; "B"; "C"] PNone = Some (["A"], 0%float).
Proof. by vm_compute. Qed.

Lemma greedy_route_length_witness :
  exists route d,
    greedy_route_from_coords Sample.geocache Sample.flat_distance Sample.round2
      ["D"; "B"; "C"; "B"; "A"] (PStr "C") = Some (route, d)
    /\ length route = 4.
Proof.
  destruct (greedy_route_length Sample.geocache Sample.flat_distance
              Sample.round2 ["D"; "B"; "C"; "B"; "A"] (PStr "C"))
    as (route & d & Heq & Hlen & _).
  - apply Forall_forall, (bool_decide_unpack _). vm_compute. exact I.
  - reflexivity.
  - exists route, d. split; [done|]. exact Hlen.
Defined.

Lemma greedy_route_nearest_neighbour_witness :
  exists route total,
    greedy_route_from_coords Sample.geocache Sample.flat_distance Sample.round2
      ["A"; "B"; "C"; "D"] (PStr "B") = Some (route, Sample.round2 total)
    /\ head route = Some "B".
Proof.
  destruct (greedy_route_nearest_neighbour Sample.geocache Sample.flat_distance
              Sample.round2 "A" ["B"; "C"; "D"] (PStr "B"))
    as (route & total & Heq & Hhd & _).
  - apply Forall_forall, (bool_decide_unpack _). vm_compute. exact I.
  - reflexivity.
  - exists route, total. split; [done|]. exact Hhd.
Defined.

Lemma greedy_route_boundary_witness :
  greedy_route_from_coords Sample.geocache Sample.flat_distance Sample.round2
    ["C"] (PStr "A") = Some (["C"], 0%float).
Proof.
  apply (proj2 (greedy_route_boundary Sample.geocache Sample.flat_distance
                  Sample.round2)).
  - apply (bool_decide_unpack _). vm_compute. exact I.
  - reflexivity.
Defined.

(** ** The endpoints *)

Lemma assign_locations_no_employee customers : assign_locations [] customers = [].
Proof. done. Qed.

Lemma assign_locations_no_customer employees : assign_locations employees [] = [].
Proof.
  rewrite assign_locations_omap.
  induction employees as [|emp es IH]; [done|].
  csimpl. rewrite IH. unfold assignment_of. simpl. by destruct (is_available emp).
Qed.

Lemma select_employee_found e_id name assignments a :
  select_employee e_id name assignments = Some (Some a) -> a ∈ assignments.
Proof.
  unfold select_employee, find_by_e_id, find_by_name.
  destruct (truthy e_id); [|destruct (truthy name); [|done]];
    intros [= H%find_some]; apply list_elem_of_In; tauto.
Qed.

Section EndpointFacts.

Variable GEOCACHE : gmap string coord.
Variable haversine : coord -> coord -> float.
Variable round2 : float -> float.
Variable folium_render : list string -> list coord -> string.

Local Abbreviation endpoint_assign :=
  (assign_locations_endpoint GEOCACHE haversine round2 folium_render).
Local Abbreviation endpoint_route :=
  (optimized_route GEOCACHE haversine round2).
Local Abbreviation endpoint_map :=
  (optimized_map GEOCACHE haversine round2 folium_render).

(** C1. Take a request that selects an assignment none of whose
    locations is in the geocache, and a request whose employee id is in
    no assignment. The second is answered 404, employee not found. The
    first is answered otherwise by each endpoint: 200 with an empty
    route and the distance 0.0 by [/assign_locations] and
    [/optimized_route], and 500, no coordinates, by [/optimized_map]. *)
Theorem empty_route_differs_from_not_found employees customers pa pb a :
  select_employee (p_e_id pa) (p_name pa) (assign_locations employees customers)
    = Some (Some a) ->
  locs_with_coords GEOCACHE (assigned_locations a) = [] ->
  truthy (p_e_id pb) = true ->
  find_by_e_id (p_e_id pb) (assign_locations employees customers) = None ->
  (endpoint_assign (JsonBody pa) employees customers
     = (AssignBody (a_e_id a) (a_name a) [] 0%float None, 200%Z)
   /\ endpoint_assign (JsonBody pb) employees customers = not_found
   /\ endpoint_assign (JsonBody pa) employees customers
      <> endpoint_assign (JsonBody pb) employees customers)
  /\ (endpoint_route (JsonBody pa) employees customers
        = (RouteBody (a_e_id a) (a_name a) [] 0%float, 200%Z)
      /\ endpoint_route (JsonBody pb) employees customers = not_found
      /\ endpoint_route (JsonBody pa) employees customers
         <> endpoint_route (JsonBody pb) employees customers)
  /\ (endpoint_map (JsonBody pa) employees customers
        = (ErrorBody "Failed to generate map (no coordinates)" None, 500%Z)
      /\ endpoint_map (JsonBody pb) employees customers = not_found
      /\ endpoint_map (JsonBody pa) employees customers
         <> endpoint_map (JsonBody pb) employees customers).
Proof.
  intros Hsel Hlocs Hid Hnone.
  assert (select_employee (p_e_id pb) (p_name pb)
            (assign_locations employees customers) = Some None) as Hsel'.
  { unfold select_employee. by rewrite Hid, Hnone. }
  assert (forall k, with_route GEOCACHE haversine round2 a (p_depot pa) k
                    = k [] 0%float) as Hroute.
  { intros k. unfold with_route. by rewrite Hlocs. }
  assert (exists e es c cs, employees = e :: es /\ customers = c :: cs)
    as (e & es & c & cs & -> & ->).
  { apply select_employee_found in Hsel.
    destruct employees as [|e es]; [inversion Hsel|].
    destruct customers as [|c cs]; [|by eauto 6].
    rewrite assign_locations_no_customer in Hsel. inversion Hsel. }
  unfold assign_locations_endpoint, optimized_route, optimized_map.
  rewrite Hsel, Hsel', !Hroute. unfold not_found. simpl.
  split_and!; done.
Qed.

End EndpointFacts.

Lemma empty_route_differs_from_not_found_witness :
  assign_locations_endpoint Sample.geocache Sample.flat_distance Sample.round2
    Sample.render
    (JsonBody {| p_e_id := PStr "E1"; p_name := PNone; p_depot := PNone |})
    [Sample.e1] [Sample.ticket "Z" "leak"]
  = (AssignBody (PStr "E1") (PStr "Asha") [] 0%float None, 200%Z)
  /\ assign_locations_endpoint Sample.geocache Sample.flat_distance Sample.round2
       Sample.render
       (JsonBody {| p_e_id := PStr "E9"; p_name := PNone; p_depot := PNone |})
       [Sample.e1] [Sample.ticket "Z" "leak"]
     = not_found.
Proof.
  destruct (empty_route_differs_from_not_found Sample.geocache
              Sample.flat_distance Sample.round2 Sample.render
              [Sample.e1] [Sample.ticket "Z" "leak"]
              {| p_e_id := PStr "E1"; p_name := PNone; p_depot := PNone |}
              {| p_e_id := PStr "E9"; p_name := PNone; p_depot := PNone |}
              (make_assignment Sample.e1 [PStr "Z"]))
    as ((Hfound & Hmissing & _) & _); [reflexivity..|].
  split; [exact Hfound|exact Hmissing].
Defined.

(** An employee that is available and has no matching ticket is in no
    assignment, and is answered like an unknown employee. *)
Lemma unassigned_employee_not_found :
  assign_locations [Sample.e5] Sample.tickets = []
  /\ optimized_route Sample.geocache Sample.flat_distance Sample.round2
       (JsonBody {| p_e_id := PStr "E5"; p_name := PNone; p_depot := PNone |})
       [Sample.e5] Sample.tickets
     = not_found.
Proof. by vm_compute. Qed.

(** *** Selecting the employee *)

Lemma find_by_e_id_spec e_id assignments a :
  find_by_e_id e_id assignments = Some a ->
  a ∈ assignments /\ py_str (a_e_id a) = py_str e_id.
Proof.
  unfold find_by_e_id. intros [Hin Heq]%find_some.
  split; [by apply list_elem_of_In|by apply String.eqb_eq].
Qed.

Lemma find_by_name_spec name assignments a :
  find_by_name name assignments = Some a ->
  a ∈ assignments /\ norm_name (a_name a) = norm_name name.
Proof.
  unfold find_by_name. intros [Hin Heq]%find_some.
  split; [by apply list_elem_of_In|by apply String.eqb_eq].
Qed.

Lemma find_by_name_norm name name' assignments :
  norm_name name = norm_name name' ->
  find_by_name name assignments = find_by_name name' assignments.
Proof. unfold find_by_name. by intros ->. Qed.

(** C10. When the request has a truthy [e_id], the employee is the
    first assignment whose [e_id], as a string, is the string of the
    requested one, character for character, and the [name] of the request
    plays no part. When [e_id] is absent or falsy and [name] is truthy, it
    is the first assignment whose name equals the requested one once both
    are trimmed and lower-cased, so that two requested names with the same
    trimmed lower-case form select the same assignment. *)
Theorem select_employee_rules assignments e_id name :
  (truthy e_id = true ->
     select_employee e_id name assignments
       = Some (List.find (fun a => String.eqb (py_str (a_e_id a)) (py_str e_id))
                 assignments)
     /\ (forall name', select_employee e_id name' assignments
                       = select_employee e_id name assignments)
     /\ (forall a, select_employee e_id name assignments = Some (Some a) ->
                   py_str (a_e_id a) = py_str e_id))
  /\ (truthy e_id = false -> truthy name = true ->
        select_employee e_id name assignments
          = Some (List.find
                    (fun a => String.eqb
                                (PyStr.lower (PyStr.strip (py_str (a_name a))))
                                (PyStr.lower (PyStr.strip (py_str name))))
                    assignments)
        /\ (forall name', truthy name' = true ->
               PyStr.lower (PyStr.strip (py_str name'))
               = PyStr.lower (PyStr.strip (py_str name)) ->
               select_employee e_id name' assignments
               = select_employee e_id name assignments)
        /\ (forall a, select_employee e_id name assignments = Some (Some a) ->
               PyStr.lower (PyStr.strip (py_str (a_name a)))
               = PyStr.lower (PyStr.strip (py_str name)))).
Proof.
  unfold select_employee. split.
  - intros ->. split_and!; [done..|].
    intros a [= Ha]. by apply find_by_e_id_spec in Ha as [_ ?].
  - intros -> Hname. rewrite Hname. split_and!; [done| |].
    + intros name' -> Heq. f_equal. by apply find_by_name_norm.
    + intros a [= Ha]. by apply find_by_name_spec in Ha as [_ ?].
Qed.

Lemma select_employee_rules_witness :
  (* the id wins over the name *)
  select_employee (PStr "E1") (PStr "Lata")
    [make_assignment Sample.e5 [PStr "D"]; make_assignment Sample.e1 [PStr "A"]]
  = select_employee (PStr "E1") PNone
      [make_assignment Sample.e5 [PStr "D"]; make_assignment Sample.e1 [PStr "A"]]
  (* the name is trimmed and lower-cased *)
  /\ select_employee PNone (PStr "  ASHA ")
       [make_assignment Sample.e5 [PStr "D"]; make_assignment Sample.e1 [PStr "A"]]
     = select_employee PNone (PStr "asha")
         [make_assignment Sample.e5 [PStr "D"]; make_assignment Sample.e1 [PStr "A"]].
Proof.
  split.
  - destruct (proj1 (select_employee_rules
                       [make_assignment Sample.e5 [PStr "D"];
                        make_assignment Sample.e1 [PStr "A"]]
                       (PStr "E1") PNone)) as (_ & Hname & _); [reflexivity|].
    exact (Hname (PStr "Lata")).
  - destruct (proj2 (select_employee_rules
                       [make_assignment Sample.e5 [PStr "D"];
                        make_assignment Sample.e1 [PStr "A"]]
                       PNone (PStr "asha"))) as (_ & Hnorm & _); [reflexivity..|].
    apply Hnorm; reflexivity.
Defined.

(** The id is compared as it is written: another case or a space around
    it finds nothing, where the same change in a name finds the
    employee. *)
Lemma select_employee_examples :
  select_employee (PStr "E1") PNone [make_assignment Sample.e1 [PStr "A"]]
    = Some (Some (make_assignment Sample.e1 [PStr "A"]))
  /\ select_employee (PStr "e1") PNone [make_assignment Sample.e1 [PStr "A"]]
     = Some None
  /\ select_employee (PStr " E1") PNone [make_assignment Sample.e1 [PStr "A"]]
     = Some None
  /\ select_employee PNone (PStr " aSHA ") [make_assignment Sample.e1 [PStr "A"]]
     = Some (Some (make_assignment Sample.e1 [PStr "A"]))
  /\ select_employee (PStr "") (PStr "Asha") [make_assignment Sample.e1 [PStr "A"]]
     = Some (Some (make_assignment Sample.e1 [PStr "A"]))
  /\ select_employee PNone PNone [make_assignment Sample.e1 [PStr "A"]] = None.
Proof. by vm_compute. Qed.

(** * Further properties of the engine *)

(** ** What every assignment satisfies *)

Lemma py_eqb_truthy v w : py_eqb v w = true -> truthy v = truthy w.
Proof.
  destruct v as [|a|a|a], w as [|b|b|b]; simpl; try discriminate; auto.
  - destruct a, b; simpl; congruence.
  - destruct a; intros ->%Z.eqb_eq; reflexivity.
  - destruct b; intros ->%Z.eqb_eq; reflexivity.
  - by intros ->%Z.eqb_eq.
  - by intros ->%String.eqb_eq.
Qed.

Lemma locations_for_truthy customers prob loc :
  loc ∈ locations_for customers prob -> truthy loc = true /\ truthy prob = true.
Proof.
  unfold locations_for. rewrite list_elem_of_fmap.
  intros (c & -> & Hc). apply list_elem_of_In, filter_In in Hc as [_ Hc].
  unfold ticket_ok in Hc. apply andb_true_iff in Hc as [Hok Heq].
  apply andb_true_iff in Hok as [Hloc Hprob].
  split; [done|]. by rewrite <- (py_eqb_truthy _ _ Heq).
Qed.

Lemma locations_for_congr customers p q :
  py_eqb p q = true -> locations_for customers p = locations_for customers q.
Proof.
  intros Hpq. unfold locations_for. f_equal.
  induction customers as [|c cs IH]; [done|].
  simpl. rewrite IH.
  assert (py_eqb (c_problem_occured c) p = py_eqb (c_problem_occured c) q) as ->;
    [|done].
  rewrite !(py_eqb_sym (c_problem_occured c)). by apply py_eqb_congr.
Qed.

Lemma assignment_of_Some customers emp a :
  assignment_of customers emp = Some a ->
  is_available emp = true
  /\ locations_for customers (problem_occured emp) <> []
  /\ a = make_assignment emp (locations_for customers (problem_occured emp)).
Proof.
  unfold assignment_of. destruct (is_available emp); [|done].
  destruct (locations_for customers (problem_occured emp)) eqn:E; [done|].
  by intros [= <-].
Qed.

(** X1. Every assignment returned carries at least one location, all its
    locations and its problem category are truthy, and the assignments
    come in the order of the employees: their ids are a sublist of the
    employees' ids. *)
Theorem assign_locations_invariants employees customers :
  (forall a, a ∈ assign_locations employees customers ->
     assigned_locations a <> []
     /\ (forall loc, loc ∈ assigned_locations a -> truthy loc = true)
     /\ truthy (a_problem_occured a) = true)
  /\ sublist (map a_e_id (assign_locations employees customers))
       (map e_id employees).
Proof.
  split.
  - intros a (emp & _ & Ha)%elem_of_assign_locations.
    apply assignment_of_Some in Ha as (_ & Hne & ->). simpl.
    split_and!; [done| |].
    + intros loc Hloc. by apply locations_for_truthy in Hloc as [? _].
    + destruct (locations_for customers (problem_occured emp)) as [|loc ?] eqn:E;
        [done|].
      apply (locations_for_truthy customers _ loc). rewrite E. by left.
  - rewrite assign_locations_omap.
    induction employees as [|emp es IH]; [done|].
    csimpl. destruct (assignment_of customers emp) as [a|] eqn:Ha; simpl.
    + apply assignment_of_Some in Ha as (_ & _ & ->). simpl.
      by apply sublist_skip.
    + by apply sublist_cons.
Qed.

(** X2. Two assignments whose problem categories are equal carry the
    same list of locations. *)
Theorem assign_locations_same_category employees customers a b :
  a ∈ assign_locations employees customers ->
  b ∈ assign_locations employees customers ->
  py_eqb (a_problem_occured a) (a_problem_occured b) = true ->
  assigned_locations a = assigned_locations b.
Proof.
  intros (ea & _ & Ha)%elem_of_assign_locations
         (eb & _ & Hb)%elem_of_assign_locations.
  apply assignment_of_Some in Ha as (_ & _ & ->).
  apply assignment_of_Some in Hb as (_ & _ & ->). simpl.
  apply locations_for_congr.
Qed.

Lemma assign_locations_same_category_witness :
  assigned_locations (make_assignment Sample.e1 [PStr "A"; PStr "B"; PStr "A"])
  = assigned_locations
      (make_assignment (Sample.emp "E7" "Nila" "leak" "1")
         [PStr "A"; PStr "B"; PStr "A"]).
Proof.
  apply (assign_locations_same_category
           [Sample.e1; Sample.e5; Sample.emp "E7" "Nila" "leak" "1"]
           Sample.tickets).
  - apply elem_of_assign_locations. exists Sample.e1.
    split; [left|reflexivity].
  - apply elem_of_assign_locations. exists (Sample.emp "E7" "Nila" "leak" "1").
    split; [do 2 right; left|reflexivity].
  - reflexivity.
Defined.

(** ** The planner and its input *)

Section PlannerInput.

Variable GEOCACHE : gmap string coord.
Variable haversine : coord -> coord -> float.
Variable round2 : float -> float.

Local Abbreviation held := (fun kc : string * coord => GEOCACHE !! kc.1 = Some kc.2).

Lemma coords_set_held d k v :
  Forall held d -> GEOCACHE !! k = Some v -> Forall held (coords_set d k v).
Proof.
  intros Hd Hk. induction Hd as [|[k0 v0] rest H0 Hrest IH]; simpl.
  - by repeat constructor.
  - destruct (String.eqb k0 k) eqn:E.
    + apply String.eqb_eq in E as ->. by constructor.
    + by constructor.
Qed.

Lemma build_coords_held locations :
  Forall held (build_coords GEOCACHE locations).
Proof.
  unfold build_coords.
  assert (Forall held []) as Hnil by constructor. revert Hnil.
  generalize ([] : coord_dict).
  induction locations as [|x r IH]; intros d Hd; simpl; [done|].
  apply IH. unfold coords_step.
  destruct (GEOCACHE !! x) as [[lat lon]|] eqn:Hx; [|done].
  by apply coords_set_held.
Qed.

Lemma coords_of_keys d : Forall held d -> d = coords_of GEOCACHE (coords_keys d).
Proof.
  unfold coords_of, coords_keys.
  induction 1 as [|[k c] rest Hk Hrest IH]; [done|].
  csimpl. simpl in Hk. rewrite Hk. simpl. by rewrite <- IH.
Qed.

Lemma build_coords_canonical locations :
  build_coords GEOCACHE locations
  = coords_of GEOCACHE (route_nodes GEOCACHE locations).
Proof.
  rewrite <- build_coords_keys. apply coords_of_keys, build_coords_held.
Qed.

Lemma route_nodes_idemp locations :
  route_nodes GEOCACHE (route_nodes GEOCACHE locations)
  = route_nodes GEOCACHE locations.
Proof.
  unfold route_nodes at 1. rewrite filter_all.
  - apply distinct_NoDup, NoDup_distinct.
  - intros y Hy. by apply elem_of_route_nodes in Hy as [_ ?].
Qed.

(** X3. The planner looks at its input only through the locations that
    are in the geocache, each taken once at its first place: entries that
    are not in the geocache and repeated entries change nothing, so the
    filter the endpoints apply before the call changes nothing either. *)
Theorem greedy_route_input_normal locations depot :
  greedy_route_from_coords GEOCACHE haversine round2 locations depot
  = greedy_route_from_coords GEOCACHE haversine round2
      (distinct (filter (fun loc => is_Some (GEOCACHE !! loc)) locations))
      depot.
Proof.
  fold (route_nodes GEOCACHE locations).
  unfold greedy_route_from_coords.
  by rewrite !build_coords_canonical, route_nodes_idemp.
Qed.



End PlannerInput.


(** ** The answers of the endpoints *)

Section EndpointAnswers.

Variable GEOCACHE : gmap string coord.
Variable haversine : coord -> coord -> float.
Variable round2 : float -> float.
Variable folium_render : list string -> list coord -> string.


Lemma greedy_route_sound locations depot route d :
  greedy_route_from_coords GEOCACHE haversine round2 locations depot = Some (route, d) ->
  NoDup route
  /\ forall x, x ∈ route -> x ∈ locations /\ is_Some (GEOCACHE !! x).
Proof.
  intros Heq.
  pose proof (greedy_route_run GEOCACHE haversine round2 locations depot) as Hrun.
  pose proof (elem_of_route_nodes GEOCACHE locations) as Hnodes.
  destruct (route_nodes GEOCACHE locations) as [|first rest] eqn:E.
  - rewrite Hrun in Heq. injection Heq as <- <-.
    split; [constructor|]. intros x Hx. inversion Hx.
  - cbv zeta in Hrun. destruct Hrun as (Hstart & route' & total & Heq' & Hwalk).
    rewrite Heq' in Heq. injection Heq as <- <-.
    destruct (greedy_run_route _ _ _ _ _ _ _ _ Hwalk) as (Hnd & Hsub & _);
      [apply NoDup_singleton|].
    split; [done|]. intros x Hx. apply Hnodes.
    destruct (Hsub x Hx) as [Hx'|Hx']; [|done].
    apply list_elem_of_singleton in Hx' as ->. done.
Qed.

Lemma elem_of_locs_with_coords locations x :
  x ∈ locs_with_coords GEOCACHE locations
  <-> PStr x ∈ locations /\ is_Some (GEOCACHE !! x).
Proof.
  unfold locs_with_coords. rewrite list_elem_of_omap. split.
  - intros (v & Hv & Hx). destruct v as [| | |s]; try done.
    destruct (GEOCACHE !! s) eqn:Hs; [|done].
    injection Hx as ->. split; [done|]. by rewrite Hs.
  - intros [Hin [c Hc]]. exists (PStr x). split; [done|]. by rewrite Hc.
Qed.

(** The planner's part of an endpoint never fails. *)
Lemma with_route_run emp depot :
  exists route d,
    greedy_route_from_coords GEOCACHE haversine round2
      (locs_with_coords GEOCACHE (assigned_locations emp)) depot
      = Some (route, d)
    /\ forall k, with_route GEOCACHE haversine round2 emp depot k = k route d.
Proof.
  destruct (greedy_route_total GEOCACHE haversine round2
              (locs_with_coords GEOCACHE (assigned_locations emp)) depot)
    as (route & d & Heq).
  exists route, d. split; [done|]. intros k. unfold with_route. by rewrite Heq.
Qed.

Lemma generate_route_map_html_None route :
  (forall x, x ∈ route -> is_Some (GEOCACHE !! x)) ->
  generate_route_map_html GEOCACHE folium_render route = None <-> route = [].
Proof.
  intros Hall. unfold generate_route_map_html.
  destruct route as [|x rest]; [done|].
  destruct (Hall x) as [c Hc]; [left|].
  csimpl. by rewrite Hc.
Qed.


(** X7. When [/optimized_route] answers with a route, the employee is one
    of the assignments computed from the data, no stop of the route is
    repeated, and every stop is one of the employee's assigned locations
    and is in the geocache. *)
Theorem optimized_route_answer req employees customers e n route d st :
  optimized_route GEOCACHE haversine round2 req employees customers = (RouteBody e n route d, st) ->
  st = 200%Z
  /\ NoDup route
  /\ exists a,
       a ∈ assign_locations employees customers
       /\ a_e_id a = e /\ a_name a = n
       /\ forall x, x ∈ route ->
            PStr x ∈ assigned_locations a /\ is_Some (GEOCACHE !! x).
Proof.
  unfold optimized_route.
  destruct req as [details|p]; [done|].
  destruct (select_employee (p_e_id p) (p_name p)
              (assign_locations employees customers)) as [[emp|]|] eqn:Hsel;
    [|done..].
  destruct (with_route_run emp (p_depot p)) as (route' & d' & Hgreedy & Hk).
  rewrite Hk. intros [= <- <- <- <- <-].
  apply greedy_route_sound in Hgreedy as [Hnd Hin].
  split_and!; [done..|].
  exists emp. split_and!; [by apply select_employee_found in Hsel|done..|].
  intros x Hx. destruct (Hin x Hx) as [Hloc Hgeo].
  by apply elem_of_locs_with_coords in Hloc as [? _].
Qed.


(** X9. In an answer of [/assign_locations] the map is missing exactly
    when the route is empty. *)
Theorem assign_endpoint_map_missing req employees customers e n route d map_html st :
  assign_locations_endpoint GEOCACHE haversine round2 folium_render req employees customers
    = (AssignBody e n route d map_html, st) ->
  map_html = None <-> route = [].
Proof.
  unfold assign_locations_endpoint.
  destruct req as [details|p]; [done|].
  destruct employees as [|e0 es]; [done|].
  destruct customers as [|c0 cs]; [done|].
  destruct (select_employee (p_e_id p) (p_name p)
              (assign_locations (e0 :: es) (c0 :: cs))) as [[emp|]|]; [|done..].
  destruct (with_route_run emp (p_depot p)) as (route' & d' & Hgreedy & Hk).
  rewrite Hk. intros [= <- <- <- <- <- <-].
  apply generate_route_map_html_None.
  intros x Hx. by apply (greedy_route_sound _ _ _ _ Hgreedy).
Qed.

(** X10. When [/optimized_map] answers with a map, the map is not the
    empty text, and [/optimized_route] answers the same request with the
    same employee and distance and a route that is not empty. *)
Theorem optimized_map_answer req employees customers e n html d st :
  optimized_map GEOCACHE haversine round2 folium_render req employees customers
    = (MapBody e n html d, st) ->
  st = 200%Z /\ html <> ""
  /\ exists route,
       route <> []
       /\ optimized_route GEOCACHE haversine round2 req employees customers
          = (RouteBody e n route d, 200%Z).
Proof.
  unfold optimized_map, optimized_route.
  destruct req as [details|p]; [done|].
  destruct (select_employee (p_e_id p) (p_name p)
              (assign_locations employees customers)) as [[emp|]|]; [|done..].
  destruct (with_route_run emp (p_depot p)) as (route & d' & Hgreedy & Hk).
  rewrite !Hk.
  destruct (generate_route_map_html GEOCACHE folium_render route)
    as [[|c html']|] eqn:Hmap; [done| |done].
  intros [= <- <- <- <- <-]. split_and!; [done..|].
  exists route. split; [|done].
  intros ->. discriminate Hmap.
Qed.

End EndpointAnswers.

(** ** Loading the data files *)

Lemma first_loaded_skips {A : Type} (skipped rest : list (file_state A)) :
  (forall f, f ∈ skipped -> f = Absent \/ f = Unreadable) ->
  first_loaded (skipped ++ rest) = first_loaded rest.
Proof.
  induction skipped as [|f fs IH]; intros Hs; [done|].
  destruct (Hs f) as [-> | ->]; [left|..]; simpl; apply IH;
    intros g Hg; apply Hs; by right.
Qed.

(** X11. The data files are tried in order: candidates that are absent
    or cannot be read are passed over and the first that loads decides,
    whatever stands at the later paths, also when its content has an
    unusable shape, which gives the empty list. When no candidate loads
    the list is empty. The same holds for the employees. *)
Theorem load_json_candidates_first_wins
    (skipped : list (file_state (json_doc customer))) data rest
    (skipped' : list (file_state (json_doc employee))) data' rest' :
  (forall f, f ∈ skipped -> f = Absent \/ f = Unreadable) ->
  (forall f, f ∈ skipped' -> f = Absent \/ f = Unreadable) ->
  load_json_candidates (skipped ++ Loaded data :: rest)
                       (skipped' ++ Loaded data' :: rest')
  = {| cand_customers := records_of data; cand_employees := records_of data' |}
  /\ load_json_candidates skipped skipped'
     = {| cand_customers := []; cand_employees := [] |}.
Proof.
  intros Hs Hs'. unfold load_json_candidates.
  rewrite !first_loaded_skips by done. simpl.
  rewrite <- (app_nil_r skipped), <- (app_nil_r skipped').
  by rewrite !first_loaded_skips.
Qed.

Lemma load_json_candidates_first_wins_witness :
  load_json_candidates
    ([Absent; Unreadable] ++ Loaded OtherJson :: [Loaded (ListOf Sample.tickets)])
    ([] ++ Loaded (DictWith [Sample.e1]) :: [])
  = {| cand_customers := []; cand_employees := [Sample.e1] |}.
Proof.
  apply (load_json_candidates_first_wins
           [Absent; Unreadable] OtherJson [Loaded (ListOf Sample.tickets)]
           [] (DictWith [Sample.e1]) []).
  - intros f Hf. rewrite !elem_of_cons in Hf.
    destruct Hf as [->|[->|Hf]]; [by left|by right|inversion Hf].
  - intros f Hf. inversion Hf.
Defined.

(** X12. When no geocache file loads, the geocache is empty and every
    route planned with it is empty, with the distance 0.0. *)
Theorem load_geocache_none_empty_routes
    (paths : list (file_state (gmap string coord)))
    haversine round2 locations depot :
  (forall f, f ∈ paths -> f = Absent \/ f = Unreadable) ->
  load_geocache paths = ∅
  /\ greedy_route_from_coords (load_geocache paths) haversine round2
       locations depot = Some ([], 0%float).
Proof.
  intros Hs.
  assert (load_geocache paths = ∅) as ->.
  { unfold load_geocache. rewrite <- (app_nil_r paths).
    by rewrite first_loaded_skips. }
  split; [done|].
  pose proof (greedy_route_run ∅ haversine round2 locations depot) as Hrun.
  destruct (route_nodes ∅ locations) as [|first rest] eqn:E; [done|].
  exfalso. assert (first ∈ route_nodes ∅ locations) as Hin by (rewrite E; left).
  apply elem_of_route_nodes in Hin as [_ [c Hc]].
  by rewrite lookup_empty in Hc.
Qed.

Lemma load_geocache_none_empty_routes_witness :
  greedy_route_from_coords (load_geocache [Absent; Unreadable; Absent])
    Sample.flat_distance Sample.round2 ["A"; "B"] (PStr "A")
  = Some ([], 0%float).
Proof.
  apply (load_geocache_none_empty_routes [Absent; Unreadable; Absent]).
  intros f Hf. rewrite !elem_of_cons in Hf.
  destruct Hf as [->|[->|[->|Hf]]]; [by left|by right|by left|inversion Hf].
Defined.

(** ** The employee filter of admin.py *)

Lemma admin_true_set_tokens t :
  Admin.in_set t Admin.true_set
  = existsb (String.eqb t) avail_tokens || String.eqb t "y".
Proof.
  unfold Admin.in_set, Admin.true_set, avail_tokens. cbn [existsb].
  destruct (String.eqb t "yes"), (String.eqb t "true"), (String.eqb t "1"),
    (String.eqb t "available"), (String.eqb t "y"); reflexivity.
Qed.

(** X13. The filter of admin.py asked for the availability "yes" keeps
    the employees that the assignment engine takes as available and, in
    addition, those whose availability is the token y. *)
Theorem admin_availability_vs_engine emp :
  Admin.availability_matches (Admin.get_availability emp) (PStr "yes")
  = is_available emp || String.eqb (avail_token emp) "y".
Proof.
  assert (forall av, Admin.availability_matches av (PStr "yes")
                     = Admin.in_set (Admin.normalize_text av) Admin.true_set)
    as -> by reflexivity.
  rewrite admin_true_set_tokens.
  unfold is_available, avail_token, Admin.get_availability.
  destruct (availability emp) as [[|b|z|s]|]; reflexivity.
Qed.

Lemma filter_sublist {A : Type} (f : A -> bool) (l : list A) :
  sublist (List.filter f l) l.
Proof.
  induction l as [|x l IH]; [done|].
  simpl. destruct (f x); [by apply sublist_skip|by apply sublist_cons].
Qed.

(** X14. The filter of admin.py compares problem categories after
    trimming and lower-casing: two requested categories with the same
    normal form give the same answer. The answer keeps the order of the
    employee file, and every employee in it has the requested category
    up to case and surrounding blanks. *)
Theorem admin_filter_normalised employees problem problem' availability :
  truthy problem = true -> truthy problem' = true ->
  Admin.normalize_text problem = Admin.normalize_text problem' ->
  Admin.filter_employees employees problem availability
  = Admin.filter_employees employees problem' availability
  /\ exists kept,
       Admin.filter_employees employees problem availability = Some kept
       /\ sublist kept employees
       /\ forall emp, emp ∈ kept ->
            Admin.normalize_text (problem_occured emp)
            = Admin.normalize_text problem.
Proof.
  intros Hp Hp' Hnorm. unfold Admin.filter_employees.
  rewrite Hp, Hp', Hnorm. simpl. split; [done|].
  set (same := fun emp : employee =>
                 String.eqb (Admin.normalize_text (problem_occured emp))
                   (Admin.normalize_text problem')).
  assert (forall emp, emp ∈ List.filter same employees ->
            Admin.normalize_text (problem_occured emp)
            = Admin.normalize_text problem') as Hsame.
  { intros emp Hin. apply list_elem_of_In, filter_In in Hin as [_ Heq].
    by apply String.eqb_eq in Heq. }
  destruct (truthy availability).
  - eexists. split; [done|]. split.
    + etransitivity; apply filter_sublist.
    + intros emp Hin. apply Hsame.
      apply list_elem_of_In, filter_In in Hin as [Hin _].
      by apply list_elem_of_In.
  - eexists. split; [done|]. split; [apply filter_sublist|done].
Qed.

Lemma admin_filter_normalised_witness :
  Admin.filter_employees [Sample.e1; Sample.e2; Sample.e5] (PStr " LEAK ") PNone
  = Admin.filter_employees [Sample.e1; Sample.e2; Sample.e5] (PStr "leak") PNone.
Proof.
  apply (admin_filter_normalised [Sample.e1; Sample.e2; Sample.e5]
           (PStr " LEAK ") (PStr "leak") PNone); reflexivity.
Defined.

(** ** The ticket store of customers_api.py *)









Lemma validate_customer_payload_ok payload r :
  CustomersApi.validate_customer_payload payload = [] ->
  r ∈ CustomersApi.required ->
  exists v, payload !! r = Some v
            /\ py_eqb v PNone = false /\ py_eqb v (PStr "") = false.
Proof.
  unfold CustomersApi.validate_customer_payload. intros Hnil Hr.
  assert (~ In r (List.filter
                    (fun r => match payload !! r with
                              | None => true
                              | Some v => py_eqb v PNone || py_eqb v (PStr "")
                              end) CustomersApi.required)) as Hnot
    by (rewrite Hnil; intros []).
  rewrite filter_In in Hnot. apply list_elem_of_In in Hr.
  destruct (payload !! r) as [v|]; [|tauto].
  exists v. split; [done|].
  destruct (py_eqb v PNone), (py_eqb v (PStr "")); simpl in Hnot; tauto.
Qed.

Lemma create_customer_ticket_store' body customers write_ok :
  match CustomersApi.create_customer_ticket body customers write_ok with
  | (CustomersApi.Created t, st, store) =>
      store = customers ++ [t]
      /\ exists payload,
          CustomersApi.validate_customer_payload payload = []
          /\ payload !! "location" = Some (CustomersApi.t_location t)
          /\ payload !! "problem_occured"
             = Some (CustomersApi.t_problem_occured t)
  | _ => True
  end.
Proof.
  unfold CustomersApi.create_customer_ticket.
  destruct body as [payload|]; [|done].
  case_bool_decide; [done|].
  destruct (CustomersApi.validate_customer_payload payload) eqn:Hval; [|done].
  destruct write_ok; [|done].
  split; [done|]. exists payload. unfold CustomersApi.field. simpl.
  destruct (validate_customer_payload_ok payload "location" Hval)
    as (v2 & -> & _); [set_solver|].
  destruct (validate_customer_payload_ok payload "problem_occured" Hval)
    as (v4 & -> & _); [set_solver|].
  done.
Qed.


Lemma locations_for_app cs1 cs2 prob :
  locations_for (cs1 ++ cs2) prob
  = locations_for cs1 prob ++ locations_for cs2 prob.
Proof. unfold locations_for. by rewrite List.filter_app, map_app. Qed.

(** X17. A ticket that was created with a location and a problem
    category given as strings is taken up by the assignment engine: an
    available employee whose category is equal to the ticket's receives
    an assignment that holds the ticket's location. *)
Theorem created_ticket_is_assigned body customers t st store emp loc prob :
  CustomersApi.create_customer_ticket body customers true
    = (CustomersApi.Created t, st, store) ->
  CustomersApi.t_location t = PStr loc ->
  CustomersApi.t_problem_occured t = PStr prob ->
  is_available emp = true ->
  py_eqb (problem_occured emp) (PStr prob) = true ->
  exists a,
    assign_locations [emp] (map CustomersApi.as_customer store) = [a]
    /\ a_e_id a = e_id emp
    /\ PStr loc ∈ assigned_locations a.
Proof.
  intros Hcreate Hloc Hprob Hav Heq.
  pose proof (create_customer_ticket_store' body customers true) as Hstore.
  rewrite Hcreate in Hstore.
  destruct Hstore as (-> & payload & Hval & Hl & Hp).
  destruct (validate_customer_payload_ok payload "location" Hval)
    as (v & Hv & _ & Hne); [set_solver|].
  destruct (validate_customer_payload_ok payload "problem_occured" Hval)
    as (w & Hw & _ & Hne'); [set_solver|].
  rewrite Hl in Hv. rewrite Hp in Hw.
  injection Hv as <-. injection Hw as <-.
  rewrite Hloc in Hne. rewrite Hprob in Hne'. simpl in Hne, Hne'.
  assert (locations_for [CustomersApi.as_customer t] (problem_occured emp)
          = [PStr loc]) as Hlast.
  { unfold locations_for, ticket_ok, CustomersApi.as_customer. simpl.
    rewrite Hloc, Hprob. simpl. rewrite Hne, Hne'. simpl.
    rewrite py_eqb_sym in Heq. simpl in Heq. by rewrite Heq. }
  rewrite assign_locations_omap. csimpl. unfold assignment_of. rewrite Hav.
  rewrite map_app, locations_for_app. simpl map. rewrite Hlast.
  destruct (locations_for (map CustomersApi.as_customer customers)
              (problem_occured emp) ++ [PStr loc]) as [|l0 ls] eqn:E.
  { by apply app_eq_nil in E as [_ ?]. }
  eexists. split; [done|]. split; [done|]. simpl.
  rewrite <- E. apply elem_of_app. right. left.
Qed.

(** ** The properties above on the sample data *)

Lemma optimized_route_answer_witness :
  200%Z = 200%Z
  /\ NoDup ["A"; "B"]
  /\ exists a,
       a ∈ assign_locations [Sample.e1; Sample.e5] Sample.tickets
       /\ a_e_id a = PStr "E1" /\ a_name a = PStr "Asha"
       /\ forall x, x ∈ ["A"; "B"] ->
            PStr x ∈ assigned_locations a /\ is_Some (Sample.geocache !! x).
Proof.
  apply (optimized_route_answer Sample.geocache Sample.flat_distance
           Sample.round2
           (JsonBody {| p_e_id := PStr "E1"; p_name := PNone; p_depot := PNone |})
           [Sample.e1; Sample.e5] Sample.tickets
           (PStr "E1") (PStr "Asha") ["A"; "B"] 1%float 200%Z).
  reflexivity.
Defined.


Lemma assign_endpoint_map_missing_witness :
  (None : option string) = None <-> ([] : list string) = [].
Proof.
  apply (assign_endpoint_map_missing Sample.geocache Sample.flat_distance
           Sample.round2 Sample.render
           (JsonBody {| p_e_id := PStr "E1"; p_name := PNone; p_depot := PNone |})
           [Sample.e1] [Sample.ticket "Z" "leak"]
           (PStr "E1") (PStr "Asha") [] 0%float None 200%Z).
  reflexivity.
Defined.

Lemma optimized_map_answer_witness :
  200%Z = 200%Z /\ "A > B" <> ""
  /\ exists route,
       route <> []
       /\ optimized_route Sample.geocache Sample.flat_distance Sample.round2
            (JsonBody {| p_e_id := PStr "E1"; p_name := PNone; p_depot := PNone |})
            [Sample.e1; Sample.e5] Sample.tickets
          = (RouteBody (PStr "E1") (PStr "Asha") route 1%float, 200%Z).
Proof.
  apply (optimized_map_answer Sample.geocache Sample.flat_distance
           Sample.round2 Sample.render
           (JsonBody {| p_e_id := PStr "E1"; p_name := PNone; p_depot := PNone |})
           [Sample.e1; Sample.e5] Sample.tickets
           (PStr "E1") (PStr "Asha") "A > B" 1%float 200%Z).
  reflexivity.
Defined.

Lemma created_ticket_is_assigned_witness :
  exists a,
    assign_locations [Sample.e1]
      (map CustomersApi.as_customer
         [{| CustomersApi.username := PStr "kiran";
             CustomersApi.ticket_number := PStr "T0001";
             CustomersApi.t_location := PStr "C";
             CustomersApi.contact := PInt 5550100;
             CustomersApi.t_problem_occured := PStr "leak" |}]) = [a]
    /\ a_e_id a = e_id Sample.e1
    /\ PStr "C" ∈ assigned_locations a.
Proof.
  apply (created_ticket_is_assigned
           (Some (<["username" := PStr "kiran"]>
                    (<["location" := PStr "C"]>
                       (<["contact" := PInt 5550100]>
                          (<["problem_occured" := PStr "leak"]> ∅)))))
           []
           {| CustomersApi.username := PStr "kiran";
              CustomersApi.ticket_number := PStr "T0001";
              CustomersApi.t_location := PStr "C";
              CustomersApi.contact := PInt 5550100;
              CustomersApi.t_problem_occured := PStr "leak" |}
           201%Z
           [{| CustomersApi.username := PStr "kiran";
               CustomersApi.ticket_number := PStr "T0001";
               CustomersApi.t_location := PStr "C";
               CustomersApi.contact := PInt 5550100;
               CustomersApi.t_problem_occured := PStr "leak" |}]
           Sample.e1 "C" "leak"); reflexivity.
Defined.
